(** * react-blessed: the blessed component and its reconcile transaction

    A shallow embedding of [src/ReactBlessedComponent.js] and of the
    reconcile transaction shim, with the properties of the reconciler
    proved over it.

    Conventions of the embedding.
    - JavaScript objects that the code mutates ([this], the registry, the
      blessed nodes) are passed explicitly: a method of the component takes
      the instance [this] and returns the instance after the call; the
      registry and the blessed nodes live in a [world] threaded by the
      monad [M].
    - An exception aborts the call and keeps the effects performed before
      it: a computation returns the world it reached together with either
      a value or an error.
    - Every call made to a collaborator (registry, blessed, screen, user
      handler) is appended to the [log] of the world, so that the order and
      the number of calls can be stated.
    - React identifiers are hierarchical strings such as ".0.2.1"; they are
      kept as the list of their segments, [[0; 2; 1]].  Children are the
      unkeyed children of a blessed element, named by their index, as
      React's [flattenChildren] names them.
    - [transaction] and [context] are only handed on to React's child
      reconciler, which uses them for refs; elements here carry no ref, so
      both are left out. *)

From Stdlib Require Import ZArith Ascii String List Lia.
From stdpp Require Import gmap strings list.

Local Set Warnings "-register-all".

(** ** Data *)

Abbreviation ident := (list nat).
Abbreviation handle := nat.

(** Values of the props other than [children]. [PFun f] is the function
    object number [f]. *)
Inductive pvalue :=
  | PUndefined
  | PNull
  | PBool (b : bool)
  | PNum (z : Z)
  | PStr (s : string)
  | PFun (f : nat).

Abbreviation options := (gmap string pvalue).

(** The value of [props.children]: the key is absent ([undefined]), or
    holds [null], a single element, or an array of elements. *)
Inductive children_value (A : Type) :=
  | ChildrenUndefined
  | ChildrenNull
  | ChildrenOne (a : A)
  | ChildrenMany (l : list A).
Arguments ChildrenUndefined {A}.
Arguments ChildrenNull {A}.
Arguments ChildrenOne {A} a.
Arguments ChildrenMany {A} l.

(** A React element of a blessed type: [{type, props}], the props split as
    [{children, ...options} = props] splits them: [props_children] is the
    value under [children], [props_rest] holds the other keys. *)
Inductive element :=
  Element { type : string; props_rest : options;
            props_children : children_value element }.

(** [props[key]]: the children under the key [children] (absent when they
    are [undefined]), the other props under their own keys. *)
Inductive prop :=
  | PropAbsent
  | PropValue (v : pvalue)
  | PropChildren (c : children_value element).

Definition props_get (e : element) (key : string) : prop :=
  if decide (key = "children"%string) then
    match props_children e with
    | ChildrenUndefined => PropAbsent
    | c => PropChildren c
    end
  else
    match props_rest e !! key with
    | Some v => PropValue v
    | None => PropAbsent
    end.

(** [this] of a [ReactBlessedComponent]: the fields the code reads or
    writes. [_renderedChildren] is React's map from child name to child
    instance; the names of unkeyed children are their positions, so the map
    is the list of its values ([null] and the empty map are both [[]]). *)
Inductive instance :=
  Instance { _tag : string; _currentElement : element;
             _rootNodeID : option ident;
             _renderedChildren : list instance }.

Definition set_rootNodeID (this : instance) (id : option ident) : instance :=
  Instance (_tag this) (_currentElement this) id (_renderedChildren this).

Definition set_renderedChildren (this : instance) (cs : list instance)
  : instance :=
  Instance (_tag this) (_currentElement this) (_rootNodeID this) cs.

(** A blessed node. *)
Record widget :=
  Widget { wtype : string; wattrs : options; wparent : option handle;
           wchildren : list handle; wlisteners : nat }.

(** Calls to the collaborators, in the order they are made. *)
Inductive call :=
  | CreateWidget (ty : string) (opts : options) (h : handle)
  | OnAny (h : handle)
  | Append (parent child : handle)
  | ApplyOptions (h : handle) (opts : options)
  | OffAny (h : handle)
  | Remove (parent child : handle)
  | RegistryAdd (id : ident) (h : handle)
  | RegistryDrop (id : ident)
  | DebouncedRender
  | CallHandler (f : nat) (args : list pvalue).

Record world :=
  World { registry : gmap ident handle;
          screen : handle;
          widgets : gmap handle widget;
          next_handle : handle;
          log : list call }.

Inductive error :=
  | UnknownWidgetType (ty : string)
  | UnknownNode.

Inductive result (A : Type) :=
  | Ok (a : A)
  | Err (e : error).
Arguments Ok {A} a.
Arguments Err {A} e.

(** ** The monad of the embedding: state, and errors that keep the state *)

Definition M (A : Type) : Type := world -> world * result A.

Definition ret {A} (a : A) : M A := fun w => (w, Ok a).

Definition throw {A} (e : error) : M A := fun w => (w, Err e).

Definition bind {A B} (m : M A) (k : A -> M B) : M B :=
  fun w => match m w with
           | (w', Ok a) => k a w'
           | (w', Err e) => (w', Err e)
           end.

Notation "x <- m ;; k" := (bind m (fun x => k))
  (at level 100, m at next level, right associativity).
Notation "m ;;; k" := (bind m (fun _ => k))
  (at level 100, right associativity).

Definition emit (c : call) : M unit :=
  fun w => (World (registry w) (screen w) (widgets w) (next_handle w)
                  (log w ++ [c]), Ok tt).

Definition set_registry (r : gmap ident handle) : M unit :=
  fun w => (World r (screen w) (widgets w) (next_handle w) (log w), Ok tt).

Definition set_widgets (ws : gmap handle widget) : M unit :=
  fun w => (World (registry w) (screen w) ws (next_handle w) (log w), Ok tt).

(** Iteration over an array with the index of each entry. *)
Fixpoint for_each {A B} (f : nat -> A -> M B) (index : nat) (l : list A)
  : M (list B) :=
  match l with
  | [] => ret []
  | a :: l' =>
      b <- f index a ;;
      bs <- for_each f (S index) l' ;;
      ret (b :: bs)
  end.

(** [[].concat(children || [])]: the children to use. *)
Definition childrenToUse {A} (children : children_value A) : list A :=
  match children with
  | ChildrenUndefined => []
  | ChildrenNull => []
  | ChildrenOne a => [a]
  | ChildrenMany l => l
  end.

(** [for_each f 0 (childrenToUse children)], written by cases on
    [children] so that a function recursive on the element tree can pass
    itself as [f] (see [for_children_eq]). *)
Definition for_children {A B} (f : nat -> A -> M B)
  (children : children_value A) : M (list B) :=
  match children with
  | ChildrenUndefined => for_each f 0 []
  | ChildrenNull => for_each f 0 []
  | ChildrenOne a => for_each f 0 [a]
  | ChildrenMany l => for_each f 0 l
  end.

(** ** Collaborators *)

Module ReactBlessedIDOperations.

(** The widget registry, [./ReactBlessedIDOperations], is not among the
    sources; its operations are those the component calls. *)

(** Modelled from the spec: [get] of the missing registry gives the widget
    handle of an identifier, or fails with [UnknownNode]. *)
Definition get (id : ident) : M handle :=
  fun w => match registry w !! id with
           | Some h => (w, Ok h)
           | None => (w, Err UnknownNode)
           end.

(** Modelled from the spec: [add] of the missing registry records the
    widget handle of an identifier. *)
Definition add (id : ident) (node : handle) : M unit :=
  fun w => (set_registry (<[id := node]> (registry w)) ;;;
            emit (RegistryAdd id node)) w.

(** Modelled from the spec: [drop] of the missing registry deletes the
    entry of an identifier. *)
Definition drop (id : ident) : M unit :=
  fun w => (set_registry (delete id (registry w)) ;;;
            emit (RegistryDrop id)) w.

(** Modelled from the spec: [getParent] of the missing registry gives the
    screen for a root identifier (one segment) and the widget registered
    for the enclosing identifier otherwise. *)
Definition getParent (id : ident) : M handle :=
  match id with
  | [_] => fun w => (w, Ok (screen w))
  | _ => get (removelast id)
  end.

(** Modelled from the spec: [screen.debouncedRender()], set up with the
    screen outside the sources, is the request for a debounced redraw. *)
Definition debouncedRender : M unit := emit DebouncedRender.

End ReactBlessedIDOperations.

Module Blessed.

(** The blessed library (an external package), as far as the component
    uses it: nodes are created detached, [append] makes a node the last
    child of its new parent, [remove] takes a child out, [onAny] and
    [offAny] add a listener for every event and drop all listeners. *)

(** [blessed[type](options)]: a new node, not attached, no listener. *)
Definition createWidget (ty : string) (opts : options) : M handle :=
  fun w =>
    let h := next_handle w in
    (World (registry w) (screen w)
           (<[h := Widget ty opts None [] 0]> (widgets w)) (S h)
           (log w ++ [CreateWidget ty opts h]), Ok h).

Definition add_listener (x : widget) : widget :=
  Widget (wtype x) (wattrs x) (wparent x) (wchildren x) (S (wlisteners x)).

Definition clear_listeners (x : widget) : widget :=
  Widget (wtype x) (wattrs x) (wparent x) (wchildren x) 0.

Definition set_parent (p : option handle) (x : widget) : widget :=
  Widget (wtype x) (wattrs x) p (wchildren x) (wlisteners x).

Definition set_children (cs : list handle) (x : widget) : widget :=
  Widget (wtype x) (wattrs x) (wparent x) cs (wlisteners x).

Definition set_attrs (o : options) (x : widget) : widget :=
  Widget (wtype x) o (wparent x) (wchildren x) (wlisteners x).

Definition onAny (h : handle) : M unit :=
  fun w => (set_widgets (alter add_listener h (widgets w)) ;;;
            emit (OnAny h)) w.

Definition offAny (h : handle) : M unit :=
  fun w => (set_widgets (alter clear_listeners h (widgets w)) ;;;
            emit (OffAny h)) w.

Definition without (h : handle) (l : list handle) : list handle :=
  filter (fun x => x ≠ h) l.

(** What [parent.remove(node)] does to the nodes: nothing unless [node]
    is a child of [parent]. *)
Definition detach (p h : handle) (ws : gmap handle widget)
  : gmap handle widget :=
  match ws !! h with
  | Some x =>
      if decide (wparent x = Some p) then
        alter (fun y => set_children (without h (wchildren y)) y) p
              (<[h := set_parent None x]> ws)
      else ws
  | None => ws
  end.

Definition remove (p h : handle) : M unit :=
  fun w => (set_widgets (detach p h (widgets w)) ;;; emit (Remove p h)) w.

(** [parent.append(node)]: the node leaves its former parent, if any, and
    becomes the last child of [parent]. *)
Definition append (p h : handle) : M unit :=
  fun w =>
    let ws0 := match widgets w !! h with
               | Some x => match wparent x with
                           | Some q => detach q h (widgets w)
                           | None => widgets w
                           end
               | None => widgets w
               end in
    let ws1 := alter (set_parent (Some p)) h ws0 in
    let ws2 := alter (fun y => set_children (wchildren y ++ [h]) y) p ws1 in
    (set_widgets ws2 ;;; emit (Append p h)) w.

End Blessed.

(** ** ReactBlessedComponent: construction *)

Definition lower_ascii (c : ascii) : ascii :=
  let n := nat_of_ascii c in
  if (65 <=? n)%nat && (n <=? 90)%nat then ascii_of_nat (n + 32) else c.

Fixpoint toLowerCase (s : string) : string :=
  match s with
  | EmptyString => EmptyString
  | String c s' => String (lower_ascii c) (toLowerCase s')
  end.

(** [constructor(tag)]; [_currentElement] is not set by the constructor,
    the element given here stands for the field before [construct]. *)
Definition constructor (tag : string) (unset : element) : instance :=
  Instance (toLowerCase tag) unset None [].

Definition construct (this : instance) (element : element) : instance :=
  Instance (_tag this) element (_rootNodeID this) (_renderedChildren this).

Module ReactMultiChild.

(** React's child reconciler (React 0.14, [ReactMultiChild] and
    [ReactChildReconciler]) for unkeyed children, over the methods of the
    component it is mixed into. The queue of DOM child updates it fills
    is processed by [processChildrenUpdates], which does nothing in
    react-blessed, and is left out. *)

(** [instantiateReactComponent(element)] for an element of a blessed
    type. *)
Definition instantiate (element : element) : instance :=
  construct (constructor (type element) element) element.

(** [shouldUpdateReactComponent]: same type (and same key; there is no
    key here). *)
Definition shouldUpdate (prevElement nextElement : element) : bool :=
  bool_decide (type prevElement = type nextElement).

(** [mountChildren]: each child is instantiated, then mounted under the
    identifier of [this] extended by the name of the child. *)
Definition mountChildren (mountComponent : instance -> ident -> M instance)
  (rootNodeID : ident) (nestedChildren : list element)
  : M (list instance) :=
  for_each (fun index child =>
              mountComponent (instantiate child) (rootNodeID ++ [index]))
           0 nestedChildren.

(** [unmountChildren] *)
Definition unmountChildren (unmountComponent : instance -> M instance)
  (renderedChildren : list instance) : M unit :=
  for_each (fun _ child => unmountComponent child) 0 renderedChildren ;;;
  ret tt.

(** [ReactChildReconciler.updateChildren]: along the next children, a
    previous child of the same name is updated in place when
    [shouldUpdate] holds, and is unmounted and replaced by a new instance
    otherwise; then the previous children with no next child are
    unmounted. The flag tells whether the instance is the previous one. *)
Fixpoint reconcilerUpdateChildren
  (receiveComponent : instance -> element -> M instance)
  (unmountComponent : instance -> M instance)
  (prevChildren : list instance) (nextChildren : list element)
  {struct prevChildren} : M (list (instance * bool)) :=
  match prevChildren with
  | [] => ret (map (fun e => (instantiate e, false)) nextChildren)
  | prevChild :: prevs =>
      match nextChildren with
      | [] =>
          unmountComponent prevChild ;;;
          reconcilerUpdateChildren receiveComponent unmountComponent
            prevs []
      | nextElement :: nexts =>
          c <- (if shouldUpdate (_currentElement prevChild) nextElement
                then
                  this' <- receiveComponent prevChild nextElement ;;
                  ret (this', true)
                else
                  unmountComponent prevChild ;;;
                  ret (instantiate nextElement, false)) ;;
          cs <- reconcilerUpdateChildren receiveComponent unmountComponent
                  prevs nexts ;;
          ret (c :: cs)
      end
  end.

(** The second loop of [_updateChildren]: the instances that are not the
    previous ones are mounted, in order. *)
Definition mountNewChildren
  (mountComponent : instance -> ident -> M instance)
  (rootNodeID : ident) (nextChildren : list (instance * bool))
  : M (list instance) :=
  for_each (fun index (c : instance * bool) =>
              if snd c then ret (fst c)
              else mountComponent (fst c) (rootNodeID ++ [index]))
           0 nextChildren.

Definition updateChildren
  (mountComponent : instance -> ident -> M instance)
  (receiveComponent : instance -> element -> M instance)
  (unmountComponent : instance -> M instance)
  (rootNodeID : ident) (prevChildren : list instance)
  (nextNestedChildren : list element) : M (list instance) :=
  nextChildren <- reconcilerUpdateChildren receiveComponent
                    unmountComponent prevChildren nextNestedChildren ;;
  mountNewChildren mountComponent rootNodeID nextChildren.

End ReactMultiChild.

(** The collaborators whose code is outside the component. *)
Class Collaborators := {
  (** [solveClass]: style normalisation, a pure function *)
  solveClass : options -> options;
  (** lodash's [startCase] *)
  startCase : string -> string;
  (** whether [blessed[ty]] is defined, the test of the invariant in
      [mountNode]; what is defined there is called as a widget
      constructor *)
  blessed_known : string -> bool;
  (** how [update] merges options into the attributes of a live node *)
  merge_options : options -> options -> options
}.

Section Component.

Context {collaborators : Collaborators}.

Import ReactBlessedIDOperations Blessed ReactMultiChild.

(** Modelled from the spec: [update] (from [./update]) is not among the
    sources; it applies the options to the live node in place. *)
Definition update (h : handle) (opts : options) : M unit :=
  fun w =>
    (set_widgets
       (alter (fun x => set_attrs (merge_options (wattrs x) opts) x)
              h (widgets w)) ;;;
     emit (ApplyOptions h opts)) w.

(** The listener given to [node.onAny] in [mountNode]; the [this] it
    closes over is passed at the time of the event. Only a function
    passes the [typeof] test. *)
Definition dispatcher (this : instance) (ty : string) (args : list pvalue)
  : M unit :=
  let handler := props_get (_currentElement this) ("on" +:+ startCase ty) in
  match handler with
  | PropValue (PFun f) => emit (CallHandler f args)
  | _ => ret tt
  end.

Definition mountNode (parent : handle) (element : element) : M handle :=
  let options := props_rest element in
  if negb (blessed_known (type element))
  then throw (UnknownWidgetType (type element))
  else
    node <- createWidget (type element) (solveClass options) ;;
    onAny node ;;;
    append parent node ;;;
    ret node.

(** [mountComponent], by recursion on the element that [this] holds. *)
Fixpoint mountElement (element : element) (this : instance) (rootID : ident)
  {struct element} : M instance :=
  let this := set_rootNodeID this (Some rootID) in
  parent <- getParent rootID ;;
  node <- mountNode parent element ;;
  add rootID node ;;;
  rendered <- for_children
                (fun index child =>
                   mountElement child (instantiate child) (rootID ++ [index]))
                (props_children element) ;;
  debouncedRender ;;;
  ret (set_renderedChildren this rendered).

Definition mountComponent (this : instance) (rootID : ident) : M instance :=
  mountElement (_currentElement this) this rootID.

Fixpoint unmountComponent (this : instance) : M instance :=
  for_each (fun _ child => unmountComponent child) 0
           (_renderedChildren this) ;;;
  let this := set_renderedChildren this [] in
  match _rootNodeID this with
  | None => throw UnknownNode
  | Some rootNodeID =>
      parent <- getParent rootNodeID ;;
      node <- get rootNodeID ;;
      offAny node ;;;
      remove parent node ;;;
      drop rootNodeID ;;;
      ret (set_rootNodeID this None)
  end.

(** [receiveComponent(nextElement, prevElement, transaction, context)]:
    of its parameters the body reads [nextElement], and hands the last two
    on to [updateChildren]. *)
Fixpoint receiveComponent (this : instance) (nextElement : element)
  {struct this} : M instance :=
  let options := props_rest nextElement in
  let children := props_children nextElement in
  match _rootNodeID this with
  | None => throw UnknownNode
  | Some rootNodeID =>
      node <- get rootNodeID ;;
      update node (solveClass options) ;;;
      let childrenToUse := childrenToUse children in
      rendered <- updateChildren mountComponent
                    (fun child next => receiveComponent child next)
                    unmountComponent rootNodeID
                    (_renderedChildren this) childrenToUse ;;
      debouncedRender ;;;
      ret (set_renderedChildren this rendered)
  end.

Definition getPublicInstance (this : instance) : M handle :=
  match _rootNodeID this with
  | None => throw UnknownNode
  | Some rootNodeID => get rootNodeID
  end.

(** A sequence of updates of one component; the first failure ends it. *)
Fixpoint receiveAll (this : instance) (nexts : list element) : M instance :=
  match nexts with
  | [] => ret this
  | next :: nexts' =>
      this' <- receiveComponent this next ;;
      receiveAll this' nexts'
  end.

End Component.

(** ** ReactBlessedReconcileTransaction *)

Module CallbackQueue.

(** React's [CallbackQueue] with [PooledClass.addPoolingTo]: the queue
    objects live in a store, and the objects released are kept in
    [instancePool] (at most [poolSize] of them) to be handed out again.
    [_callbacks] is [null] ([None]) for a queue with nothing enqueued. *)
Abbreviation queue_ref := nat.

Record store :=
  Store { queues : gmap queue_ref (option (list nat));
          instancePool : list queue_ref;
          next_queue : queue_ref }.

Definition poolSize : nat := 10.

(** [this._callbacks = null] *)
Definition reset (q : queue_ref) (s : store) : store :=
  Store (<[q := None]> (queues s)) (instancePool s) (next_queue s).

(** [getPooled(null)]: the last released object, initialised again by
    the constructor, or a new object. *)
Definition getPooled (s : store) : store * queue_ref :=
  match last (instancePool s) with
  | Some q =>
      (reset q (Store (queues s) (removelast (instancePool s))
                      (next_queue s)), q)
  | None =>
      let q := next_queue s in
      (Store (<[q := None]> (queues s)) (instancePool s) (S q), q)
  end.

(** [enqueue(callback)] *)
Definition enqueue (q : queue_ref) (callback : nat) (s : store) : store :=
  let callbacks := match queues s !! q with
                   | Some (Some l) => l
                   | _ => []
                   end in
  Store (<[q := Some (callbacks ++ [callback])]> (queues s))
        (instancePool s) (next_queue s).

(** [release(queue)]: the destructor resets the queue, which then goes
    back to the pool unless the pool is full. *)
Definition release (q : queue_ref) (s : store) : store :=
  let s' := reset q s in
  if decide (length (instancePool s') < poolSize)
  then Store (queues s') (instancePool s' ++ [q]) (next_queue s')
  else s'.

(** The callbacks of a queue; [[]] when nothing is enqueued. *)
Definition callbacks_of (q : queue_ref) (s : store) : list nat :=
  match queues s !! q with
  | Some (Some l) => l
  | _ => []
  end.

End CallbackQueue.

Module ReactBlessedReconcileTransaction.

Import CallbackQueue.

(** The transaction object: the fields of [Transaction.Mixin] and the
    queue of mount-ready callbacks ([null] is [None]). There is no
    wrapper type to speak of: [getTransactionWrappers] gives none. *)
Record transaction :=
  Transaction { transactionWrappers : list unit;
                wrapperInitData : list unit;
                _isInTransaction : bool;
                reactMountReady : option queue_ref }.

Definition getTransactionWrappers (this : transaction) : list unit := [].

Definition getReactMountReady (this : transaction) : option queue_ref :=
  reactMountReady this.

(** [Transaction.Mixin.reinitializeTransaction] *)
Definition reinitializeTransaction (this : transaction) : transaction :=
  Transaction (getTransactionWrappers this) [] false (reactMountReady this).

(** The constructor, on a new or a pooled [this]. *)
Definition ReactBlessedReconcileTransaction (this : transaction) (s : store)
  : store * transaction :=
  let this := reinitializeTransaction this in
  let (s', q) := getPooled s in
  (s', Transaction (transactionWrappers this) (wrapperInitData this)
                   (_isInTransaction this) (Some q)).

(** [destructor]: releasing anything but a queue is an invariant
    violation, so [None] is returned when [reactMountReady] is [null]. *)
Definition destructor (this : transaction) (s : store)
  : option (store * transaction) :=
  match reactMountReady this with
  | Some q =>
      Some (release q s,
            Transaction (transactionWrappers this) (wrapperInitData this)
                        (_isInTransaction this) None)
  | None => None
  end.

End ReactBlessedReconcileTransaction.

(** ** Vocabulary of the properties *)

(** [P index a] for every entry [a] of an array, [index] being its
    position counted from the given start. *)
Fixpoint Forall_index {A} (P : nat -> A -> Prop) (index : nat) (l : list A)
  : Prop :=
  match l with
  | [] => True
  | a :: l' => P index a /\ Forall_index P (S index) l'
  end.

(** A component tree whose identifiers are those React gives at mount: the
    identifier of a child is the identifier of its parent extended by the
    index of the child. *)
Fixpoint mounted_at (id : ident) (this : instance) {struct this} : Prop :=
  _rootNodeID this = Some id /\
  Forall_index (fun index child => mounted_at (id ++ [index]) child) 0
               (_renderedChildren this).

(** A mounted tree: its identifiers are those of a mount and every one of
    them has an entry in the registry. *)
Fixpoint mounted_in (reg : gmap ident handle) (id : ident) (this : instance)
  {struct this} : Prop :=
  _rootNodeID this = Some id /\ is_Some (reg !! id) /\
  Forall_index (fun index child => mounted_in reg (id ++ [index]) child) 0
               (_renderedChildren this).

(** The identifiers at or under [id], and those strictly under it. *)
Definition under (id : ident) (k : ident) : Prop := id `prefix_of` k.

Definition below (id : ident) (k : ident) : Prop :=
  exists index, (id ++ [index]) `prefix_of` k.

Definition any_call (c : call) : Prop := True.

(** The calls an unmount may make. *)
Definition unmount_call (c : call) : Prop :=
  match c with
  | OffAny _ | Remove _ _ | RegistryDrop _ => True
  | _ => False
  end.

(** A widget created from the world [w] on has a handle that is new. *)
Definition created_from (n : handle) (c : call) : Prop :=
  match c with
  | CreateWidget _ _ h => n <= h
  | _ => True
  end.

(** What a run from [w] to [w'] may have changed: registry entries only at
    the identifiers [P], the screen not at all; handles are only ever
    added; the log has grown by calls that satisfy [Q]. *)
Record evolves (P : ident -> Prop) (Q : call -> Prop) (w w' : world)
  : Prop :=
  Evolves {
    ev_registry : forall k, ~ P k -> registry w' !! k = registry w !! k;
    ev_screen : screen w' = screen w;
    ev_next : next_handle w <= next_handle w';
    ev_log : exists delta, log w' = log w ++ delta /\ Forall Q delta /\
                           Forall (created_from (next_handle w)) delta
  }.

Definition preserves {A} (P : ident -> Prop) (Q : call -> Prop) (m : M A)
  : Prop :=
  forall w w' r, m w = (w', r) -> evolves P Q w w'.

(** The number of redraw requests in a log. *)
Fixpoint renders (l : list call) : nat :=
  match l with
  | [] => 0
  | DebouncedRender :: l' => S (renders l')
  | _ :: l' => renders l'
  end.

(** The number of elements of a tree. *)
Fixpoint element_size (e : element) : nat :=
  S (match props_children e with
     | ChildrenUndefined => 0
     | ChildrenNull => 0
     | ChildrenOne a => element_size a
     | ChildrenMany l => list_sum (map element_size l)
     end).

(** The number of [mountComponent] and [receiveComponent] calls that the
    update of [this] to [next] makes: the update itself, the updates of
    the children kept, and the mounts of the trees that replace a child or
    come after the previous children. *)
Fixpoint operations_along (count : instance -> element -> nat)
  (prevs : list instance) (nexts : list element) {struct prevs} : nat :=
  match prevs with
  | [] => list_sum (map element_size nexts)
  | prevChild :: prevs' =>
      match nexts with
      | [] => 0
      | nextElement :: nexts' =>
          (if ReactMultiChild.shouldUpdate (_currentElement prevChild)
                                           nextElement
           then count prevChild nextElement
           else element_size nextElement)
          + operations_along count prevs' nexts'
      end
  end.

Fixpoint update_operations (this : instance) (next : element) {struct this}
  : nat :=
  S (operations_along (fun child e => update_operations child e)
                      (_renderedChildren this)
                      (childrenToUse (props_children next))).

(** The mounts still to be made after the first loop of an update. *)
Definition pending (cs : list (instance * bool)) : nat :=
  list_sum (map (fun c : instance * bool =>
                   if snd c then 0
                   else element_size (_currentElement (fst c))) cs).

(** A component after its unmount. *)
Definition unmounted (this : instance) : instance :=
  Instance (_tag this) (_currentElement this) None [].

(** The world after [mountNode] on a known type. *)
Definition node_mounted {collaborators : Collaborators} (parent : handle)
  (element : element) (w : world) : world :=
  fst ((node <- Blessed.createWidget (type element)
                  (solveClass (props_rest element)) ;;
        Blessed.onAny node ;;; Blessed.append parent node) w).



(** A mutating operation of a pass. *)
Inductive operation :=
  | Mount (this : instance) (rootID : ident)
  | Update (this : instance) (nextElement : element).

Definition perform {collaborators : Collaborators} (op : operation)
  : M instance :=
  match op with
  | Mount this rootID => mountComponent this rootID
  | Update this nextElement => receiveComponent this nextElement
  end.

(** The mounts and updates that an operation consists of. *)
Definition operations (op : operation) : nat :=
  match op with
  | Mount this _ => element_size (_currentElement this)
  | Update this nextElement => update_operations this nextElement
  end.

(** ** Vocabulary of the further properties *)

(** [P a b] for the entries of two arrays taken in pairs; the arrays have
    the same length. *)
Fixpoint All2 {A B} (P : A -> B -> Prop) (l1 : list A) (l2 : list B)
  {struct l2} : Prop :=
  match l2, l1 with
  | [], [] => True
  | b :: l2', a :: l1' => P a b /\ All2 P l1' l2'
  | _, _ => False
  end.


Fixpoint map_index {A B} (f : nat -> A -> B) (index : nat) (l : list A)
  : list B :=
  match l with
  | [] => []
  | a :: l' => f index a :: map_index f (S index) l'
  end.


(** The component tree of an element mounted at [id]: for each element a
    component made by [constructor] and [construct], with the identifier
    React gives it. *)
Fixpoint build (e : element) (id : ident) {struct e} : instance :=
  Instance (toLowerCase (type e)) e (Some id)
    (match props_children e with
     | ChildrenUndefined => []
     | ChildrenNull => []
     | ChildrenOne a => map_index (fun index c => build c (id ++ [index])) 0 [a]
     | ChildrenMany l => map_index (fun index c => build c (id ++ [index])) 0 l
     end).

(** The identifiers of the components of a tree. *)
Fixpoint tree_ids (this : instance) : list ident :=
  match _rootNodeID this with
  | Some id => [id]
  | None => []
  end ++ flat_map tree_ids (_renderedChildren this).

(** The update of [this] to [next] keeps every component: at every depth
    there are as many next children as rendered children, and each next
    child has the type of the element its component holds. *)
Fixpoint keeps_all (this : instance) (next : element) {struct this} : Prop :=
  All2 (fun e child =>
          ReactMultiChild.shouldUpdate (_currentElement child) e = true /\
          keeps_all child e)
       (childrenToUse (props_children next)) (_renderedChildren this).

(** The component tree has the types of the tree of elements [e], child by
    child at every depth. *)
Fixpoint shaped (this : instance) (e : element) {struct this} : Prop :=
  type (_currentElement this) = type e /\
  All2 (fun e' child => shaped child e')
       (childrenToUse (props_children e)) (_renderedChildren this).


(** The calls of an update that mounts and unmounts no child. *)
Definition update_call (c : call) : Prop :=
  match c with
  | ApplyOptions _ _ | DebouncedRender => True
  | _ => False
  end.

(** The number of widgets created in a log. *)
Fixpoint creations (l : list call) : nat :=
  match l with
  | [] => 0
  | CreateWidget _ _ _ :: l' => S (creations l')
  | _ :: l' => creations l'
  end.

(** The registry of [w'] has no entry that the registry of [w] has not. *)
Definition only_deletes (w w' : world) : Prop :=
  forall k, registry w' !! k = None \/ registry w' !! k = registry w !! k.

(** A run from [w] to [w'] for every outcome of [m] is in the relation
    [R]. *)
Definition respects {A} (R : world -> world -> Prop) (m : M A) : Prop :=
  forall w w' r, m w = (w', r) -> R w w'.

(** The callbacks of a pass are enqueued one after the other. *)
Definition enqueue_all (q : CallbackQueue.queue_ref) (callbacks : list nat)
  (s : CallbackQueue.store) : CallbackQueue.store :=
  fold_left (fun s callback => CallbackQueue.enqueue q callback s) callbacks s.



(** A run from [w] to [w'] that mounts and unmounts nothing: the registry,
    the handles and the screen are as they were, and the calls made are
    [update] and the request for a redraw. *)
Definition only_updates (w w' : world) : Prop :=
  registry w' = registry w /\ next_handle w' = next_handle w /\
  screen w' = screen w /\
  exists delta, log w' = log w ++ delta /\ Forall update_call delta.

(** The update of [this] to [next] in a world where [this] is mounted
    at [id], when it keeps every component. *)
Definition quiet_update {collaborators : Collaborators} (this : instance)
  : Prop :=
  forall id next w,
    mounted_in (registry w) id this -> keeps_all this next ->
    exists w', receiveComponent this next w = (w', Ok this) /\
               only_updates w w'.

(** The identifiers at or under the children of [id] from the child
    number [index] on. *)
Definition under_from (id : ident) (index : nat) (k : ident) : Prop :=
  exists j, index <= j /\ under (id ++ [j]) k.



(** The registry entries at or under [id] are those of the identifiers
    [ids]. *)
Definition region_is (reg : gmap ident handle) (id : ident)
  (ids : list ident) : Prop :=
  forall k, under id k -> (is_Some (reg !! k) <-> In k ids).

(** The registry has, at or under [id], an entry for each component of the
    tree mounted at [id] and no other entry. *)
Definition exactly_registered (reg : gmap ident handle) (id : ident)
  (this : instance) : Prop :=
  mounted_at id this /\ region_is reg id (tree_ids this).

(** The rendered children from the index [index] on are registered
    exactly, and nothing is registered for a child after them. *)
Definition children_exact (reg : gmap ident handle) (id : ident)
  (index : nat) (cs : list instance) : Prop :=
  Forall_index (fun i c => exactly_registered reg (id ++ [i]) c) index cs /\
  forall i, index + length cs <= i -> region_is reg (id ++ [i]) [].

(** What the first loop of an update leaves for the second, as to the
    registry: a component kept is registered exactly, and nothing is
    registered where a component is to be mounted. *)
Definition reconciled_exactly (reg : gmap ident handle) (id : ident)
  (index : nat) (c : instance * bool) : Prop :=
  if snd c then exactly_registered reg (id ++ [index]) (fst c)
  else (exists e, fst c = ReactMultiChild.instantiate e) /\
       region_is reg (id ++ [index]) [].

(** A successful update keeps the registry exact. *)
Definition update_keeps_exact {collaborators : Collaborators}
  (this : instance) : Prop :=
  forall id next w w' this',
    exactly_registered (registry w) id this ->
    receiveComponent this next w = (w', Ok this') ->
    exactly_registered (registry w') id this'.

(** ** Examples *)

Module Examples.

Import ReactMultiChild.

(** ["click"] to ["Click"], as [startCase] does on one lower-case word. *)
Definition capitalize (s : string) : string :=
  match s with
  | EmptyString => EmptyString
  | String c s' =>
      let n := nat_of_ascii c in
      String (if (97 <=? n)%nat && (n <=? 122)%nat
              then ascii_of_nat (n - 32) else c) s'
  end.

Definition collaborators : Collaborators :=
  {| solveClass := fun o => o;
     startCase := capitalize;
     blessed_known := fun ty => bool_decide (ty = "box"%string)
                                || bool_decide (ty = "list"%string);
     merge_options := fun old new => new ∪ old |}.

(** A screen (handle 0) and nothing mounted. *)
Definition empty_world : world :=
  World ∅ 0 {[0 := Widget "screen" ∅ None [] 0]} 1 [].

Definition leaf (ty : string) : element := Element ty ∅ ChildrenUndefined.

Definition clickable (f : nat) : element :=
  Element "box" {["onClick"%string := PFun f]} ChildrenUndefined.

(** [<box><box/><list><box/></list></box>] *)
Definition tree : element :=
  Element "box" ∅
    (ChildrenMany [leaf "box"; Element "list" ∅ (ChildrenOne (leaf "box"))]).

Definition pair_of_boxes : element :=
  Element "box" ∅ (ChildrenOne (leaf "box")).

(** The outcome of a run that succeeded, or the given default. *)
Definition outcome {A} (d : A) (r : world * result A) : world * A :=
  match snd r with
  | Ok a => (fst r, a)
  | Err _ => (fst r, d)
  end.

Definition mounted (e : element) : world * instance :=
  outcome (instantiate e)
          (mountComponent (collaborators := collaborators)
                          (instantiate e) [0] empty_world).

End Examples.

(** ** Properties *)

(** *** The monad *)

Lemma bind_ok {A B} (m : M A) (k : A -> M B) w w1 a :
  m w = (w1, Ok a) -> bind m k w = k a w1.
Proof. intros E. unfold bind. by rewrite E. Qed.

Lemma bind_err {A B} (m : M A) (k : A -> M B) w w1 e :
  m w = (w1, Err e) -> bind m k w = (w1, Err e).
Proof. intros E. unfold bind. by rewrite E. Qed.

Lemma bind_inv {A B} (m : M A) (k : A -> M B) w w' r :
  bind m k w = (w', r) ->
  (exists w1 a, m w = (w1, Ok a) /\ k a w1 = (w', r)) \/
  (exists e, m w = (w', Err e) /\ r = Err e).
Proof.
  unfold bind. destruct (m w) as [w1 [a|e]]; intros E.
  - left. by exists w1, a.
  - right. exists e. by inversion E.
Qed.

Lemma bind_inv_ok {A B} (m : M A) (k : A -> M B) w w' b :
  bind m k w = (w', Ok b) ->
  exists w1 a, m w = (w1, Ok a) /\ k a w1 = (w', Ok b).
Proof.
  intros E. apply bind_inv in E as [E|(e & _ & E)]; [done|discriminate].
Qed.


Lemma for_children_eq {A B} (f : nat -> A -> M B) children :
  for_children f children = for_each f 0 (childrenToUse children).
Proof. by destruct children. Qed.

(** *** The methods of the component, as the source writes them *)

Section Properties.

Context {collaborators : Collaborators}.

Import ReactBlessedIDOperations Blessed ReactMultiChild.

Lemma mountComponent_eq this rootID w :
  mountComponent this rootID w =
  (let this' := set_rootNodeID this (Some rootID) in
   parent <- getParent rootID ;;
   node <- mountNode parent (_currentElement this) ;;
   add rootID node ;;;
   rendered <- mountChildren mountComponent rootID
                 (childrenToUse (props_children (_currentElement this))) ;;
   debouncedRender ;;;
   ret (set_renderedChildren this' rendered)) w.
Proof.
  unfold mountComponent. destruct (_currentElement this) as [ty o c].
  simpl. by rewrite for_children_eq.
Qed.

Lemma unmountComponent_eq this w :
  unmountComponent this w =
  (unmountChildren unmountComponent (_renderedChildren this) ;;;
   match _rootNodeID this with
   | None => throw UnknownNode
   | Some rootNodeID =>
       parent <- getParent rootNodeID ;;
       node <- get rootNodeID ;;
       offAny node ;;;
       remove parent node ;;;
       drop rootNodeID ;;;
       ret (set_rootNodeID (set_renderedChildren this []) None)
   end) w.
Proof.
  destruct this as [tag cur id cs]. simpl.
  unfold unmountChildren, bind, ret.
  by destruct (for_each _ 0 cs w) as [w1 [bs|e]].
Qed.

Lemma receiveComponent_eq this nextElement w :
  receiveComponent this nextElement w =
  match _rootNodeID this with
  | None => throw UnknownNode w
  | Some rootNodeID =>
      (node <- get rootNodeID ;;
       update node (solveClass (props_rest nextElement)) ;;;
       rendered <- updateChildren mountComponent receiveComponent
                     unmountComponent rootNodeID (_renderedChildren this)
                     (childrenToUse (props_children nextElement)) ;;
       debouncedRender ;;;
       ret (set_renderedChildren this rendered)) w
  end.
Proof. by destruct this as [tag cur [id|] cs]. Qed.

Lemma getParent_world rootID w w' r :
  getParent rootID w = (w', r) -> w' = w.
Proof.
  unfold getParent, get. intros E.
  destruct rootID as [|a [|b l]]; try (by inversion E);
    destruct (registry w !! _); by inversion E.
Qed.

(** *** Unknown widget types *)

Lemma mountNode_unknown parent element w :
  blessed_known (type element) = false ->
  mountNode parent element w = (w, Err (UnknownWidgetType (type element))).
Proof. intros E. unfold mountNode. by rewrite E. Qed.

Lemma mount_unknown_no_effect this rootID w :
  blessed_known (type (_currentElement this)) = false ->
  exists e, mountComponent this rootID w = (w, Err e).
Proof.
  intros E. rewrite mountComponent_eq. cbv zeta. unfold bind at 1.
  destruct (getParent rootID w) as [w1 [p|e]] eqn:Ep;
    apply getParent_world in Ep as Ew; subst w1; [|by eexists].
  unfold bind at 1. rewrite mountNode_unknown by done. by eexists.
Qed.

(** C2: when the type of the element names no blessed widget, mounting
    it under a parent that resolves fails with [UnknownWidgetType] and
    leaves the world as it was: no widget is created or attached, no
    registry entry is added, nothing is logged. *)
Theorem mount_unknown_widget_type this rootID parent w :
  blessed_known (type (_currentElement this)) = false ->
  getParent rootID w = (w, Ok parent) ->
  mountComponent this rootID w =
  (w, Err (UnknownWidgetType (type (_currentElement this)))).
Proof.
  intros E Ep. rewrite mountComponent_eq. cbv zeta.
  rewrite (bind_ok _ _ _ _ _ Ep).
  apply bind_err. by apply mountNode_unknown.
Qed.

(** *** The event dispatcher *)



(** The update never stores the next element: [_currentElement] is
    the element given to [construct]. *)
Lemma receiveComponent_currentElement this nextElement w w' this' :
  receiveComponent this nextElement w = (w', Ok this') ->
  _currentElement this' = _currentElement this.
Proof.
  rewrite receiveComponent_eq. destruct (_rootNodeID this); [|done].
  intros E.
  apply bind_inv_ok in E as (w1 & node & _ & E).
  apply bind_inv_ok in E as (w2 & [] & _ & E).
  apply bind_inv_ok in E as (w3 & rendered & _ & E).
  apply bind_inv_ok in E as (w4 & [] & _ & E).
  unfold ret in E. by injection E as _ <-.
Qed.

(** *** Absent children *)

(** C8: an element without a [children] prop is mounted, and an update to
    it is performed, exactly as for the same element with [children]
    the empty array: same effects on the world, same failure if any, and
    a component without rendered children; the two mounted components
    differ only in the element they hold. *)
Theorem absent_children_as_empty ty o this rootID prev w :
  let absent := Element ty o ChildrenUndefined in
  let empty := Element ty o (ChildrenMany []) in
  mountComponent (construct this empty) rootID w =
    (let (w', r) := mountComponent (construct this absent) rootID w in
     (w', match r with
          | Ok this' => Ok (construct this' empty)
          | Err e => Err e
          end)) /\
  (forall w' this',
      mountComponent (construct this absent) rootID w = (w', Ok this') ->
      _renderedChildren this' = []) /\
  receiveComponent prev absent w = receiveComponent prev empty w.
Proof.
  intros absent empty. split; [|split].
  - rewrite !mountComponent_eq. cbv zeta. simpl.
    unfold bind at 1 6.
    destruct (getParent rootID w) as [w1 [p|e]]; [|done].
    unfold bind at 1 5. unfold mountNode. simpl.
    destruct (negb (blessed_known ty)); [done|].
    by destruct this.
  - intros w' this'. rewrite mountComponent_eq. cbv zeta. simpl.
    intros E.
    apply bind_inv_ok in E as (w1 & p & _ & E).
    apply bind_inv_ok in E as (w2 & node & _ & E).
    apply bind_inv_ok in E as (w3 & [] & _ & E).
    unfold mountChildren in E. simpl in E.
    apply bind_inv_ok in E as (w4 & rendered & E4 & E).
    apply bind_inv_ok in E as (w5 & [] & _ & E).
    unfold ret in E4, E. injection E4 as _ <-. by injection E as _ <-.
  - by rewrite !receiveComponent_eq.
Qed.

(** *** Induction on trees of elements and of components *)

Lemma element_tree_ind (P : element -> Prop) :
  (forall ty o c, Forall P (childrenToUse c) -> P (Element ty o c)) ->
  forall e, P e.
Proof.
  intros step. fix IH 1. intros [ty o c]. apply step.
  destruct c as [| |a|l]; simpl; try constructor; try apply IH.
  - constructor.
  - induction l as [|a l IHl]; constructor; [apply IH|apply IHl].
Qed.

Lemma instance_tree_ind (P : instance -> Prop) :
  (forall tag cur id cs, Forall P cs -> P (Instance tag cur id cs)) ->
  forall this, P this.
Proof.
  intros step. fix IH 1. intros [tag cur id cs]. apply step.
  induction cs as [|c cs IHcs]; constructor; [apply IH|apply IHcs].
Qed.

Lemma Forall_index_Forall {A} (P : nat -> A -> Prop) index l :
  Forall_index P index l -> Forall (fun a => exists i, P i a) l.
Proof.
  revert index. induction l as [|a l IH]; intros index; simpl.
  - constructor.
  - intros [Ha Hl]. constructor; eauto.
Qed.

Lemma Forall_index_impl {A} (P Q : nat -> A -> Prop) index l :
  (forall i a, P i a -> Q i a) ->
  Forall_index P index l -> Forall_index Q index l.
Proof.
  intros PQ. revert index. induction l as [|a l IH]; intros index; simpl;
    [done|]. intros [Ha Hl]. split; eauto.
Qed.

(** *** Identifiers *)

Lemma under_below id index k : under (id ++ [index]) k -> below id k.
Proof. intros U. by exists index. Qed.

Lemma below_under id k : below id k -> under id k.
Proof.
  intros [index U]. unfold under in *.
  etrans; [|exact U]. by apply prefix_app_r.
Qed.

Lemma not_below_self id : ~ below id id.
Proof.
  intros [index U]. apply prefix_length in U.
  rewrite length_app in U. simpl in U. lia.
Qed.

Lemma not_below_parent id : ~ below id (removelast id).
Proof.
  intros [index U]. apply prefix_length in U.
  rewrite length_app in U. simpl in U.
  destruct id as [|a id] using rev_ind.
  - simpl in U. lia.
  - rewrite removelast_last, length_app in U. simpl in U. lia.
Qed.

Lemma under_self id : under id id.
Proof. done. Qed.

(** *** What a run may change *)

Lemma evolves_refl P Q w : evolves P Q w w.
Proof.
  split; try done. exists []. by rewrite app_nil_r.
Qed.

Lemma created_from_le n m c : n <= m -> created_from m c -> created_from n c.
Proof. destruct c; simpl; try done. lia. Qed.

Lemma evolves_trans P Q w1 w2 w3 :
  evolves P Q w1 w2 -> evolves P Q w2 w3 -> evolves P Q w1 w3.
Proof.
  intros [R1 S1 N1 (d1 & L1 & Q1 & C1)] [R2 S2 N2 (d2 & L2 & Q2 & C2)].
  split.
  - intros k Hk. rewrite R2, R1; done.
  - congruence.
  - lia.
  - exists (d1 ++ d2). rewrite L2, L1, app_assoc. split; [done|].
    split; [by apply Forall_app|]. apply Forall_app. split; [done|].
    eapply Forall_impl; [exact C2|]. intros c. by apply created_from_le.
Qed.

Lemma evolves_mono (P P' : ident -> Prop) (Q Q' : call -> Prop) w w' :
  (forall k, P k -> P' k) -> (forall c, Q c -> Q' c) ->
  evolves P Q w w' -> evolves P' Q' w w'.
Proof.
  intros PP QQ [R S N (d & L & Qd & Cd)]. split; try done.
  - intros k Hk. apply R. eauto.
  - exists d. split; [done|]. split; [|done].
    eapply Forall_impl; [exact Qd|done].
Qed.

Lemma preserves_mono {A} (P P' : ident -> Prop) (Q Q' : call -> Prop)
  (m : M A) :
  (forall k, P k -> P' k) -> (forall c, Q c -> Q' c) ->
  preserves P Q m -> preserves P' Q' m.
Proof. intros PP QQ Hm w w' r E. eapply evolves_mono; eauto. Qed.

Lemma preserves_ret {A} P Q (a : A) : preserves P Q (ret a).
Proof. intros w w' r [= <- _]. apply evolves_refl. Qed.

Lemma preserves_throw {A} P Q e : preserves P Q (@throw A e).
Proof. intros w w' r [= <- _]. apply evolves_refl. Qed.

Lemma preserves_bind {A B} P Q (m : M A) (k : A -> M B) :
  preserves P Q m -> (forall a, preserves P Q (k a)) ->
  preserves P Q (bind m k).
Proof.
  intros Hm Hk w w' r E.
  apply bind_inv in E as [(w1 & a & E1 & E2)|(e & E1 & _)].
  - eapply evolves_trans; [by eapply Hm|by eapply Hk].
  - by eapply Hm.
Qed.

Lemma preserves_for_each {A B} P Q (f : nat -> A -> M B) index l :
  Forall (fun a => forall i, preserves P Q (f i a)) l ->
  preserves P Q (for_each f index l).
Proof.
  intros Hl. revert index.
  induction Hl as [|a l Ha Hl IH]; intros index; simpl.
  - apply preserves_ret.
  - apply preserves_bind; [apply Ha|]. intros b.
    apply preserves_bind; [apply IH|]. intros bs. apply preserves_ret.
Qed.

Lemma preserves_emit P (Q : call -> Prop) c :
  Q c -> (forall n, created_from n c) -> preserves P Q (emit c).
Proof.
  intros Qc Cc w w' r [= <- _]. split; try done.
  exists [c]. simpl. repeat split; by repeat constructor.
Qed.

Lemma preserves_get P Q id : preserves P Q (get id).
Proof.
  intros w w' r. unfold get. destruct (registry w !! id);
    intros [= <- _]; apply evolves_refl.
Qed.

Lemma preserves_getParent P Q id : preserves P Q (getParent id).
Proof.
  intros w w' r E. apply getParent_world in E as ->. apply evolves_refl.
Qed.

Lemma preserves_add (P : ident -> Prop) (Q : call -> Prop) id node :
  P id -> Q (RegistryAdd id node) -> preserves P Q (add id node).
Proof.
  intros Pid Qc w w' r [= <- _]. split; try done; simpl.
  - intros k Hk. apply lookup_insert_ne. by intros ->.
  - exists [RegistryAdd id node]. by repeat constructor.
Qed.

Lemma preserves_drop (P : ident -> Prop) (Q : call -> Prop) id :
  P id -> Q (RegistryDrop id) -> preserves P Q (drop id).
Proof.
  intros Pid Qc w w' r [= <- _]. split; try done; simpl.
  - intros k Hk. apply lookup_delete_ne. by intros ->.
  - exists [RegistryDrop id]. by repeat constructor.
Qed.

Lemma preserves_createWidget P (Q : call -> Prop) ty opts :
  (forall h, Q (CreateWidget ty opts h)) ->
  preserves P Q (createWidget ty opts).
Proof.
  intros Qc w w' r [= <- _]. split; try done; simpl; [lia|].
  exists [CreateWidget ty opts (next_handle w)]. by repeat constructor.
Qed.

Lemma preserves_onAny P (Q : call -> Prop) h :
  Q (OnAny h) -> preserves P Q (onAny h).
Proof.
  intros Qc w w' r [= <- _]. split; try done; simpl.
  exists [OnAny h]. by repeat constructor.
Qed.

Lemma preserves_offAny P (Q : call -> Prop) h :
  Q (OffAny h) -> preserves P Q (offAny h).
Proof.
  intros Qc w w' r [= <- _]. split; try done; simpl.
  exists [OffAny h]. by repeat constructor.
Qed.

Lemma preserves_append P (Q : call -> Prop) p h :
  Q (Append p h) -> preserves P Q (append p h).
Proof.
  intros Qc w w' r [= <- _]. split; try done; simpl.
  exists [Append p h]. by repeat constructor.
Qed.

Lemma preserves_remove P (Q : call -> Prop) p h :
  Q (Remove p h) -> preserves P Q (remove p h).
Proof.
  intros Qc w w' r [= <- _]. split; try done; simpl.
  exists [Remove p h]. by repeat constructor.
Qed.

Lemma preserves_update P (Q : call -> Prop) h opts :
  Q (ApplyOptions h opts) -> preserves P Q (update h opts).
Proof.
  intros Qc w w' r [= <- _]. split; try done; simpl.
  exists [ApplyOptions h opts]. by repeat constructor.
Qed.

Lemma preserves_debouncedRender P (Q : call -> Prop) :
  Q DebouncedRender -> preserves P Q debouncedRender.
Proof. intros Qc. by apply preserves_emit. Qed.

Lemma preserves_mountNode P p e : preserves P any_call (mountNode p e).
Proof.
  unfold mountNode. destruct (negb _); [apply preserves_throw|].
  apply preserves_bind; [by apply preserves_createWidget|]. intros node.
  apply preserves_bind; [by apply preserves_onAny|]. intros _.
  apply preserves_bind; [by apply preserves_append|]. intros _.
  apply preserves_ret.
Qed.

(** Mounting at [rootID] touches the registry at or under [rootID]
    only. *)
Lemma mountElement_preserves element :
  forall this rootID,
    preserves (under rootID) any_call (mountElement element this rootID).
Proof.
  induction element as [ty o c IH] using element_tree_ind.
  intros this rootID. simpl mountElement. rewrite for_children_eq.
  apply preserves_bind; [apply preserves_getParent|]. intros parent.
  apply preserves_bind; [apply preserves_mountNode|]. intros node.
  apply preserves_bind; [by apply preserves_add|]. intros _.
  apply preserves_bind.
  - apply preserves_for_each. eapply Forall_impl; [exact IH|].
    intros child Hc index. simpl.
    eapply preserves_mono; [| |apply Hc]; [|done].
    intros k Hk. apply below_under. by eapply under_below.
  - intros rendered.
    apply preserves_bind; [by apply preserves_debouncedRender|].
    intros _. apply preserves_ret.
Qed.

Lemma mountComponent_preserves this rootID :
  preserves (under rootID) any_call (mountComponent this rootID).
Proof. apply mountElement_preserves. Qed.

Lemma mountChildren_preserves rootID children :
  preserves (below rootID) any_call
            (mountChildren mountComponent rootID children).
Proof.
  unfold mountChildren. apply preserves_for_each.
  apply Forall_forall. intros child _ index.
  eapply preserves_mono; [| |apply mountComponent_preserves]; [|done].
  intros k. apply under_below.
Qed.

(** Unmounting a tree mounted at [rootID] touches the registry at or
    under [rootID] only, and makes no call but [offAny], [remove] and
    [drop]. *)
Lemma unmountComponent_preserves this :
  forall rootID, mounted_at rootID this ->
    preserves (under rootID) unmount_call (unmountComponent this).
Proof.
  induction this as [tag cur id cs IH] using instance_tree_ind.
  intros rootID [Hid Hcs]. simpl in Hid, Hcs. subst id.
  simpl unmountComponent.
  apply preserves_bind.
  - apply preserves_for_each.
    apply Forall_index_Forall in Hcs.
    pose proof (proj2 (Forall_and _ cs) (conj IH Hcs)) as Hboth.
    eapply Forall_impl; [exact Hboth|].
    intros child [Hc [i Hi]] _. simpl.
    eapply preserves_mono; [| |by apply Hc]; [|done].
    intros k Hk. apply below_under. by eapply under_below.
  - intros _.
    apply preserves_bind; [apply preserves_getParent|]. intros parent.
    apply preserves_bind; [apply preserves_get|]. intros node.
    apply preserves_bind; [by apply preserves_offAny|]. intros _.
    apply preserves_bind; [by apply preserves_remove|]. intros _.
    apply preserves_bind; [by apply preserves_drop|]. intros _.
    apply preserves_ret.
Qed.

Lemma mountNewChildren_preserves rootID nextChildren :
  preserves (below rootID) any_call
            (mountNewChildren mountComponent rootID nextChildren).
Proof.
  unfold mountNewChildren. apply preserves_for_each.
  apply Forall_forall. intros [child kept] _ index. simpl.
  destruct kept; [apply preserves_ret|].
  eapply preserves_mono; [| |apply mountComponent_preserves]; [|done].
  intros k. apply under_below.
Qed.

Lemma reconcilerUpdateChildren_preserves rootID receive prevs :
  Forall (fun child => exists index, mounted_at (rootID ++ [index]) child)
         prevs ->
  Forall (fun child => forall id next, mounted_at id child ->
            preserves (below id) any_call (receive child next)) prevs ->
  forall nexts,
    preserves (below rootID) any_call
      (reconcilerUpdateChildren receive unmountComponent prevs nexts).
Proof.
  intros Hm Hr. induction prevs as [|prevChild prevs IH]; intros nexts.
  - simpl. apply preserves_ret.
  - apply Forall_cons in Hm as [[index Hc] Hm].
    apply Forall_cons in Hr as [Hrc Hr].
    assert (preserves (below rootID) any_call (unmountComponent prevChild))
      as Hu.
    { eapply preserves_mono; [| |by apply unmountComponent_preserves];
        [|done]. intros k. apply under_below. }
    destruct nexts as [|nextElement nexts]; simpl.
    + apply preserves_bind; [done|]. intros _. by apply IH.
    + apply preserves_bind.
      * destruct (shouldUpdate _ _).
        -- apply preserves_bind; [|intros; apply preserves_ret].
           eapply preserves_mono; [| |by apply Hrc]; [|done].
           intros k Hk. by apply (under_below _ index), below_under.
        -- apply preserves_bind; [done|]. intros _. apply preserves_ret.
      * intros c. apply preserves_bind; [by apply IH|].
        intros cs. apply preserves_ret.
Qed.

(** An update of a tree mounted at [rootID] touches the registry
    strictly under [rootID] only: the entry of the node itself stays. *)
Lemma receiveComponent_preserves this :
  forall rootID next, mounted_at rootID this ->
    preserves (below rootID) any_call (receiveComponent this next).
Proof.
  induction this as [tag cur id cs IH] using instance_tree_ind.
  intros rootID next [Hid Hcs]. simpl in Hid, Hcs. subst id.
  simpl receiveComponent.
  apply preserves_bind; [apply preserves_get|]. intros node.
  apply preserves_bind; [by apply preserves_update|]. intros _.
  apply preserves_bind.
  - unfold updateChildren. apply preserves_bind.
    + apply reconcilerUpdateChildren_preserves.
      * by eapply Forall_index_Forall.
      * exact IH.
    + intros nextChildren. apply mountNewChildren_preserves.
  - intros rendered.
    apply preserves_bind; [by apply preserves_debouncedRender|].
    intros _. apply preserves_ret.
Qed.

(** *** Identifiers of a mounted tree *)

Lemma for_each_Forall_index {A B} (f : nat -> A -> M B)
  (R : nat -> B -> Prop) l :
  Forall (fun a => forall i w w' b, f i a w = (w', Ok b) -> R i b) l ->
  forall index w w' bs,
    for_each f index l w = (w', Ok bs) -> Forall_index R index bs.
Proof.
  induction 1 as [|a l Ha Hl IH]; intros index w w' bs; simpl.
  - unfold ret. by intros [= _ <-].
  - intros E. apply bind_inv_ok in E as (w1 & b & Eb & E).
    apply bind_inv_ok in E as (w2 & bs' & Ebs & E).
    unfold ret in E. injection E as _ <-. simpl. eauto.
Qed.

Lemma mountElement_mounted_at element :
  forall this rootID w w' this',
    mountElement element this rootID w = (w', Ok this') ->
    mounted_at rootID this'.
Proof.
  induction element as [ty o c IH] using element_tree_ind.
  intros this rootID w w' this'. simpl mountElement.
  rewrite for_children_eq. intros E.
  apply bind_inv_ok in E as (w1 & parent & _ & E).
  apply bind_inv_ok in E as (w2 & node & _ & E).
  apply bind_inv_ok in E as (w3 & [] & _ & E).
  apply bind_inv_ok in E as (w4 & rendered & Er & E).
  apply bind_inv_ok in E as (w5 & [] & _ & E).
  unfold ret in E. injection E as _ <-. split; [done|]. simpl.
  eapply for_each_Forall_index; [|exact Er].
  eapply Forall_impl; [exact IH|]. intros child Hc i wa wb b. apply Hc.
Qed.

Lemma mountComponent_mounted_at this rootID w w' this' :
  mountComponent this rootID w = (w', Ok this') -> mounted_at rootID this'.
Proof. apply mountElement_mounted_at. Qed.

Lemma reconcilerUpdateChildren_mounted_at rootID receive prevs :
  Forall (fun child => forall id next w w' this',
            mounted_at id child ->
            receive child next w = (w', Ok this') -> mounted_at id this')
         prevs ->
  forall index nexts w w' cs,
    Forall_index (fun i child => mounted_at (rootID ++ [i]) child)
                 index prevs ->
    reconcilerUpdateChildren receive unmountComponent prevs nexts w
    = (w', Ok cs) ->
    Forall_index (fun i c => snd c = true ->
                             mounted_at (rootID ++ [i]) (fst c)) index cs.
Proof.
  induction 1 as [|prevChild prevs Hc Hr IH]; intros index nexts w w' cs.
  - simpl. unfold ret. intros _ [= _ <-]. clear.
    revert index. induction nexts as [|e nexts IH]; intros index; simpl;
      [done|]. split; [done|]. apply IH.
  - intros [Hm Hms]. destruct nexts as [|nextElement nexts]; simpl.
    + intros E. apply bind_inv_ok in E as (w1 & _ & _ & E).
      (* the next children are exhausted: nothing is kept *)
      clear -E. revert w1 E. induction prevs as [|p prevs IHp]; simpl.
      * unfold ret. by intros w1 [= _ <-].
      * intros w1 E. apply bind_inv_ok in E as (w2 & _ & _ & E). eauto.
    + intros E. apply bind_inv_ok in E as (w1 & c & Ec & E).
      apply bind_inv_ok in E as (w2 & cs' & Ecs & E).
      unfold ret in E. injection E as _ <-. simpl. split; [|eauto].
      destruct (shouldUpdate _ _).
      * apply bind_inv_ok in Ec as (w3 & this' & Et & Ec).
        unfold ret in Ec. injection Ec as _ <-. simpl. eauto.
      * apply bind_inv_ok in Ec as (w3 & ? & _ & Ec).
        unfold ret in Ec. by injection Ec as _ <-.
Qed.

Lemma mountNewChildren_mounted_at rootID nextChildren :
  forall index w w' rendered,
    Forall_index (fun i c => snd c = true ->
                             mounted_at (rootID ++ [i]) (fst c))
                 index nextChildren ->
    for_each (fun index (c : instance * bool) =>
                if snd c then ret (fst c)
                else mountComponent (fst c) (rootID ++ [index]))
             index nextChildren w = (w', Ok rendered) ->
    Forall_index (fun i child => mounted_at (rootID ++ [i]) child)
                 index rendered.
Proof.
  induction nextChildren as [|[child kept] cs IH];
    intros index w w' rendered; simpl.
  - unfold ret. by intros _ [= _ <-].
  - intros [Hc Hcs] E.
    apply bind_inv_ok in E as (w1 & b & Eb & E).
    apply bind_inv_ok in E as (w2 & bs & Ebs & E).
    unfold ret in E. injection E as _ <-. simpl. split; [|eauto].
    destruct kept.
    + unfold ret in Eb. injection Eb as _ <-. by apply Hc.
    + by eapply mountComponent_mounted_at.
Qed.

Lemma receiveComponent_mounted_at this :
  forall rootID next w w' this',
    mounted_at rootID this ->
    receiveComponent this next w = (w', Ok this') ->
    mounted_at rootID this'.
Proof.
  induction this as [tag cur id cs IH] using instance_tree_ind.
  intros rootID next w w' this' [Hid Hcs]. simpl in Hid, Hcs. subst id.
  simpl receiveComponent. intros E.
  apply bind_inv_ok in E as (w1 & node & _ & E).
  apply bind_inv_ok in E as (w2 & [] & _ & E).
  apply bind_inv_ok in E as (w3 & rendered & Er & E).
  apply bind_inv_ok in E as (w4 & [] & _ & E).
  unfold ret in E. injection E as _ <-. split; [done|]. simpl.
  unfold updateChildren in Er.
  apply bind_inv_ok in Er as (w5 & nextChildren & En & Er).
  eapply mountNewChildren_mounted_at; [|exact Er].
  eapply reconcilerUpdateChildren_mounted_at; [|exact Hcs|exact En].
  eapply Forall_impl; [exact IH|]. intros child Hc id' next' wa wb t' Hm E.
  eapply Hc; eauto.
Qed.

Lemma mounted_at_inv rootID this :
  mounted_at rootID this ->
  _rootNodeID this = Some rootID /\
  Forall_index (fun i child => mounted_at (rootID ++ [i]) child) 0
               (_renderedChildren this).
Proof. by destruct this. Qed.

(** *** What a mount does first *)

Lemma mountNode_inv parent element w w' node :
  mountNode parent element w = (w', Ok node) ->
  blessed_known (type element) = true /\ node = next_handle w /\
  w' = node_mounted parent element w.
Proof.
  unfold mountNode. destruct (blessed_known _); simpl; [|done].
  intros E. by injection E as <- <-.
Qed.



Lemma node_mounted_next parent element w :
  next_handle (node_mounted parent element w) = S (next_handle w).
Proof. done. Qed.

Lemma mountComponent_registered this rootID w w' this' :
  mountComponent this rootID w = (w', Ok this') ->
  registry w' !! rootID = Some (next_handle w) /\
  next_handle w < next_handle w'.
Proof.
  rewrite mountComponent_eq. cbv zeta. intros E.
  apply bind_inv_ok in E as (w1 & parent & Ep & E).
  apply getParent_world in Ep as ->.
  apply bind_inv_ok in E as (w2 & node & En & E).
  apply mountNode_inv in En as (_ & -> & ->).
  apply bind_inv_ok in E as (w3 & [] & Ea & E).
  injection Ea as <-.
  apply bind_inv_ok in E as (w4 & rendered & Er & E).
  apply mountChildren_preserves in Er as [Rr _ Nr _].
  apply bind_inv_ok in E as (w5 & [] & Ed & E).
  injection Ed as <-. unfold ret in E. injection E as <- _. simpl.
  rewrite Rr by apply not_below_self. simpl in *.
  rewrite lookup_insert_eq. split; [done|lia].
Qed.

(** *** Updates keep the node and its widget *)

Lemma updateChildren_preserves rootID prevs nexts :
  Forall_index (fun i child => mounted_at (rootID ++ [i]) child) 0 prevs ->
  preserves (below rootID) any_call
    (updateChildren mountComponent receiveComponent unmountComponent
                    rootID prevs nexts).
Proof.
  intros Hm. unfold updateChildren. apply preserves_bind.
  - apply reconcilerUpdateChildren_preserves.
    + by eapply Forall_index_Forall.
    + apply Forall_forall. intros child _ id next.
      apply receiveComponent_preserves.
  - intros nextChildren. apply mountNewChildren_preserves.
Qed.

Lemma receiveComponent_identity this rootID next h w w' r :
  mounted_at rootID this ->
  registry w !! rootID = Some h ->
  receiveComponent this next w = (w', r) ->
  registry w' !! rootID = Some h /\
  next_handle w <= next_handle w' /\
  exists rest,
    log w' = log w ++ ApplyOptions h (solveClass (props_rest next)) :: rest /\
    Forall (created_from (next_handle w)) rest.
Proof.
  intros Hm Hh. rewrite receiveComponent_eq.
  apply mounted_at_inv in Hm as [Hid Hcs]. rewrite Hid.
  assert (get rootID w = (w, Ok h)) as Eg by (unfold get; by rewrite Hh).
  rewrite (bind_ok _ _ _ _ _ Eg).
  intros E. apply bind_inv in E as [(w2 & [] & Eu & E)|(e & Eu & _)];
    [|discriminate].
  injection Eu as <-.
  assert (preserves (below rootID) any_call
            (rendered <- updateChildren mountComponent receiveComponent
                           unmountComponent rootID (_renderedChildren this)
                           (childrenToUse (props_children next)) ;;
             debouncedRender ;;;
             ret (set_renderedChildren this rendered))) as Hp.
  { apply preserves_bind; [by apply updateChildren_preserves|].
    intros rendered.
    apply preserves_bind; [by apply preserves_debouncedRender|].
    intros _. apply preserves_ret. }
  apply Hp in E as [Rr _ Nr (delta & Ld & _ & Cd)]. simpl in *.
  rewrite Rr by apply not_below_self. repeat split; [done..|].
  exists delta. by rewrite Ld, <- app_assoc.
Qed.

Lemma receiveAll_identity nexts :
  forall this rootID h w w' r,
    mounted_at rootID this ->
    registry w !! rootID = Some h ->
    h < next_handle w ->
    receiveAll this nexts w = (w', r) ->
    registry w' !! rootID = Some h /\
    (forall this', r = Ok this' -> _rootNodeID this' = Some rootID) /\
    exists delta,
      log w' = log w ++ delta /\
      Forall (created_from (S h)) delta /\
      (forall this', r = Ok this' ->
         Forall (fun next =>
                   ApplyOptions h (solveClass (props_rest next)) ∈ delta)
                nexts).
Proof.
  induction nexts as [|next nexts IH]; intros this rootID h w w' r Hm Hh Hn.
  - simpl. unfold ret. intros [= <- <-]. split; [done|]. split.
    + intros this' [= <-]. by apply mounted_at_inv in Hm as [? _].
    + exists []. rewrite app_nil_r. by repeat split.
  - simpl. intros E.
    apply bind_inv in E as [(w1 & this1 & E1 & E)|(e & E1 & ->)].
    + pose proof (receiveComponent_mounted_at _ _ _ _ _ _ Hm E1) as Hm1.
      destruct (receiveComponent_identity _ _ _ _ _ _ _ Hm Hh E1)
        as (Hh1 & Hn1 & rest & L1 & C1).
      destruct (IH this1 rootID h w1 w' r Hm1 Hh1 ltac:(lia) E)
        as (Hh' & Hid' & delta & L' & C' & A').
      split; [done|]. split; [done|].
      exists ((ApplyOptions h (solveClass (props_rest next)) :: rest)
                ++ delta).
      rewrite L', L1, <- app_assoc. split; [done|]. split.
      * apply Forall_app. split; [|done]. constructor; [done|].
        eapply Forall_impl; [exact C1|]. intros c.
        apply created_from_le. lia.
      * intros this' Er. constructor.
        -- apply elem_of_app. left. apply list_elem_of_here.
        -- eapply Forall_impl; [exact (A' this' Er)|].
           intros n Hin. simpl in Hin.
           apply elem_of_app. by right.
    + destruct (receiveComponent_identity _ _ _ _ _ _ _ Hm Hh E1)
        as (Hh1 & Hn1 & rest & L1 & C1).
      split; [done|]. split; [done|].
      exists (ApplyOptions h (solveClass (props_rest next)) :: rest).
      split; [done|]. split; [|done]. constructor; [done|].
      eapply Forall_impl; [exact C1|]. intros c.
      apply created_from_le. lia.
Qed.


(** *** Unmounting *)

Lemma siblings_disjoint id i j k :
  i <> j -> under (id ++ [i]) k -> ~ under (id ++ [j]) k.
Proof.
  intros Hij [k1 ->] [k2 E]. rewrite <- !app_assoc in E.
  apply app_inv_head in E. simpl in E. congruence.
Qed.

Lemma not_under_child id index : ~ under (id ++ [index]) id.
Proof.
  intros U. apply prefix_length in U. rewrite length_app in U.
  simpl in U. lia.
Qed.

Lemma under_trans id1 id2 k : under id1 id2 -> under id2 k -> under id1 k.
Proof. unfold under. by etrans. Qed.

Lemma under_child id index : under id (id ++ [index]).
Proof. by apply prefix_app_r. Qed.

Lemma Forall_index_impl_ge {A} (P Q : nat -> A -> Prop) index l :
  (forall i a, index <= i -> P i a -> Q i a) ->
  Forall_index P index l -> Forall_index Q index l.
Proof.
  revert index. induction l as [|a l IH]; intros index PQ; simpl; [done|].
  intros [Ha Hl]. split; [by apply PQ|].
  apply IH; [|done]. intros i b Hi. apply PQ. lia.
Qed.

Lemma mounted_in_at this :
  forall reg id, mounted_in reg id this -> mounted_at id this.
Proof.
  induction this as [tag cur rid cs IH] using instance_tree_ind.
  intros reg id (Hid & _ & Hcs). split; [done|]. simpl in *.
  clear Hid. revert Hcs. generalize 0.
  induction IH as [|c cs Hc _ IHcs]; intros n; simpl; [done|].
  intros [H1 H2]. split; eauto.
Qed.

Lemma mounted_in_ext this :
  forall reg reg' id,
    (forall k, under id k -> reg' !! k = reg !! k) ->
    mounted_in reg id this -> mounted_in reg' id this.
Proof.
  induction this as [tag cur rid cs IH] using instance_tree_ind.
  intros reg reg' id Hk (Hid & Hreg & Hcs).
  split; [done|]. split; [by rewrite Hk by apply under_self|].
  simpl in *. clear Hid Hreg. revert Hcs. generalize 0.
  induction IH as [|c cs Hc _ IHcs]; intros n; simpl; [done|].
  intros [H1 H2]. split; [|eauto].
  eapply Hc; [|exact H1]. intros k Uk. apply Hk.
  eapply under_trans; [apply under_child|exact Uk].
Qed.

Lemma mounted_in_inv reg rootID this :
  mounted_in reg rootID this ->
  _rootNodeID this = Some rootID /\ is_Some (reg !! rootID) /\
  Forall_index (fun i child => mounted_in reg (rootID ++ [i]) child) 0
               (_renderedChildren this).
Proof. by destruct this. Qed.

Lemma getParent_child id index w h :
  registry w !! id = Some h ->
  exists p, getParent (id ++ [index]) w = (w, Ok p).
Proof.
  intros Hh. destruct id as [|a id].
  - simpl. by eexists.
  - exists h. unfold getParent.
    change ((a :: id) ++ [index]) with (a :: (id ++ [index])).
    assert (removelast (a :: id ++ [index]) = a :: id) as E.
    { change (a :: id ++ [index]) with ((a :: id) ++ [index]).
      by rewrite removelast_last. }
    destruct (id ++ [index]) eqn:Eid.
    + by destruct id.
    + rewrite E. unfold get. by rewrite Hh.
Qed.

Lemma getParent_frame id w w' p :
  registry w' !! removelast id = registry w !! removelast id ->
  screen w' = screen w ->
  getParent id w = (w, Ok p) -> getParent id w' = (w', Ok p).
Proof.
  unfold getParent, get. generalize (removelast id) as q.
  intros q HR HS. destruct id as [|a [|b l]]; rewrite ?HR, ?HS;
    first [ destruct (registry w !! q); [|done]; by intros [= ->]
          | by intros [= ->] ].
Qed.

Lemma unmountChildren_total id cs :
  Forall (fun child => forall rootID w,
            mounted_in (registry w) rootID child ->
            (exists p, getParent rootID w = (w, Ok p)) ->
            exists w', unmountComponent child w = (w', Ok (unmounted child)))
         cs ->
  forall index w,
    Forall_index (fun i child => mounted_in (registry w) (id ++ [i]) child)
                 index cs ->
    is_Some (registry w !! id) ->
    exists w',
      for_each (fun _ child => unmountComponent child) index cs w
      = (w', Ok (map unmounted cs)).
Proof.
  induction 1 as [|c cs Hc _ IH]; intros index w; simpl.
  - intros _ _. by eexists.
  - intros [Hm Hms] [h Hh].
    destruct (Hc _ _ Hm (getParent_child _ index _ _ Hh)) as [w1 E1].
    pose proof (unmountComponent_preserves _ _ (mounted_in_at _ _ _ Hm)
                  _ _ _ E1) as [R1 _ _ _].
    destruct (IH (S index) w1) as [w2 E2].
    + eapply Forall_index_impl_ge; [|exact Hms].
      intros i child Hi. apply mounted_in_ext.
      intros k Uk. apply R1. apply (siblings_disjoint _ i); [lia|done].
    + rewrite R1 by apply not_under_child. by eexists.
    + exists w2. unfold bind. rewrite E1, E2. done.
Qed.

Lemma unmountComponent_total this :
  forall rootID w,
    mounted_in (registry w) rootID this ->
    (exists p, getParent rootID w = (w, Ok p)) ->
    exists w', unmountComponent this w = (w', Ok (unmounted this)).
Proof.
  induction this as [tag cur rid cs IH] using instance_tree_ind.
  intros rootID w (Hid & Hreg & Hcs) [p Ep]. simpl in Hid, Hcs. subst rid.
  destruct (unmountChildren_total rootID cs IH 0 w Hcs Hreg) as [w1 E1].
  assert (Forall (fun child =>
                    exists i, mounted_at (rootID ++ [i]) child) cs) as Hat.
  { eapply Forall_index_Forall, Forall_index_impl; [|exact Hcs].
    intros i a. apply mounted_in_at. }
  assert (preserves (below rootID) unmount_call
            (for_each (fun _ child => unmountComponent child) 0 cs)) as Hp.
  { apply preserves_for_each. eapply Forall_impl; [exact Hat|].
    intros child [i Hi] _. simpl.
    eapply preserves_mono; [| |by apply unmountComponent_preserves];
      [|done]. intros k. apply under_below. }
  apply Hp in E1 as Hev. destruct Hev as [R1 S1 _ _].
  destruct Hreg as [node Hnode].
  assert (getParent rootID w1 = (w1, Ok p)) as Ep1.
  { eapply getParent_frame; [|done..]. apply R1, not_below_parent. }
  assert (get rootID w1 = (w1, Ok node)) as Eg.
  { unfold get. by rewrite R1, Hnode by apply not_below_self. }
  simpl unmountComponent. rewrite (bind_ok _ _ _ _ _ E1).
  rewrite (bind_ok _ _ _ _ _ Ep1), (bind_ok _ _ _ _ _ Eg).
  by eexists.
Qed.

Lemma renders_app l1 l2 : renders (l1 ++ l2) = renders l1 + renders l2.
Proof.
  induction l1 as [|c l1 IH]; simpl; [done|]. destruct c; simpl; lia.
Qed.

Lemma renders_unmount_calls delta :
  Forall unmount_call delta -> renders delta = 0.
Proof. induction 1 as [|c l Hc _ IH]; [done|]. by destruct c. Qed.

Lemma unmountComponent_drops this rootID w w' this' :
  mounted_at rootID this ->
  unmountComponent this w = (w', Ok this') ->
  registry w' !! rootID = None.
Proof.
  intros Hm. apply mounted_at_inv in Hm as [Hid _].
  rewrite unmountComponent_eq, Hid. intros E.
  apply bind_inv_ok in E as (w1 & [] & _ & E).
  apply bind_inv_ok in E as (w2 & p & _ & E).
  apply bind_inv_ok in E as (w3 & node & _ & E).
  apply bind_inv_ok in E as (w4 & [] & _ & E).
  apply bind_inv_ok in E as (w5 & [] & _ & E).
  apply bind_inv_ok in E as (w6 & [] & Ed & E).
  unfold ret in E. injection E as <- _. injection Ed as <-. simpl.
  apply lookup_delete_eq.
Qed.

Lemma Forall_index_Forall_ge {A} (P : nat -> A -> Prop) index l :
  Forall_index P index l ->
  Forall (fun a => exists i, index <= i /\ P i a) l.
Proof.
  revert index. induction l as [|a l IH]; intros index; simpl.
  - constructor.
  - intros [Ha Hl]. constructor; [by exists index|].
    eapply Forall_impl; [by apply IH|]. intros b (i & Hi & Hb).
    exists i. split; [lia|done].
Qed.

Lemma unmountChildren_dropped id cs :
  forall index w w' bs,
    Forall_index (fun i child => mounted_at (id ++ [i]) child) index cs ->
    for_each (fun _ child => unmountComponent child) index cs w
    = (w', Ok bs) ->
    forall i child, cs !! i = Some child ->
                    registry w' !! (id ++ [index + i]) = None.
Proof.
  induction cs as [|c cs IH]; intros index w w' bs; simpl; [done|].
  intros [Hc Hcs] E.
  apply bind_inv_ok in E as (w1 & b & E1 & E).
  apply bind_inv_ok in E as (w2 & bs' & E2 & E).
  unfold ret in E. injection E as <- _.
  intros [|i] child; simpl.
  - intros _. replace (index + 0) with index by lia.
    assert (preserves (fun k => exists j, S index <= j /\
                                          under (id ++ [j]) k)
              unmount_call
              (for_each (fun _ child => unmountComponent child)
                        (S index) cs)) as Hp.
    { apply preserves_for_each.
      eapply Forall_impl; [by apply Forall_index_Forall_ge in Hcs|].
      intros a (j & Hj & Ha) _. simpl.
      eapply preserves_mono; [| |by apply unmountComponent_preserves];
        [|done]. intros k Uk. by exists j. }
    apply Hp in E2 as [R2 _ _ _]. rewrite R2.
    + by eapply unmountComponent_drops.
    + intros (j & Hj & Uj).
      apply (siblings_disjoint id j index (id ++ [index])); [lia|done|].
      apply under_self.
  - intros Hi. replace (index + S i) with (S index + i) by lia. eauto.
Qed.

Lemma detach_listeners p h ws x :
  detach p h ws !! h = Some x ->
  exists x0, ws !! h = Some x0 /\ wlisteners x = wlisteners x0.
Proof.
  unfold detach. destruct (ws !! h) as [x0|] eqn:E0.
  - destruct (decide _) as [Ep|_].
    + rewrite lookup_alter. destruct (decide (p = h)) as [->|Hp].
      * rewrite lookup_insert_eq. simpl. intros [= <-]. by exists x0.
      * rewrite lookup_insert_eq. intros [= <-]. by exists x0.
    + rewrite E0. intros [= <-]. by exists x0.
  - by rewrite E0.
Qed.

Lemma detach_children p h ws x y :
  ws !! h = Some x -> wparent x = Some p ->
  detach p h ws !! p = Some y -> h ∉ wchildren y.
Proof.
  intros Eh Ep. unfold detach. rewrite Eh.
  destruct (decide _) as [_|]; [|done].
  rewrite lookup_alter_eq. destruct (_ !! p) as [z|]; [|done]. simpl.
  intros [= <-]. simpl. unfold without.
  rewrite list_elem_of_filter. tauto.
Qed.

(** C5: unmounting a mounted component first unmounts its children, in
    order, which empties their registry entries and leaves the entry of
    the node; then it takes all listeners off the widget of the node,
    removes the widget from its parent and drops the registry entry, in
    this order and with no other call: the widget is left without a
    listener and is no longer among the children of its parent; no redraw
    is requested at any point. *)
Theorem unmount_order this rootID parent node w :
  mounted_in (registry w) rootID this ->
  getParent rootID w = (w, Ok parent) ->
  registry w !! rootID = Some node ->
  exists w1 w',
    for_each (fun _ child => unmountComponent child) 0
             (_renderedChildren this) w
    = (w1, Ok (map unmounted (_renderedChildren this))) /\
    (forall i child, _renderedChildren this !! i = Some child ->
                     registry w1 !! (rootID ++ [i]) = None) /\
    registry w1 !! rootID = Some node /\
    unmountComponent this w = (w', Ok (unmounted this)) /\
    log w' = log w1 ++ [OffAny node; Remove parent node;
                        RegistryDrop rootID] /\
    widgets w' = detach parent node
                        (alter clear_listeners node (widgets w1)) /\
    (forall x, widgets w' !! node = Some x -> wlisteners x = 0) /\
    (forall x y, widgets w1 !! node = Some x -> wparent x = Some parent ->
                 widgets w' !! parent = Some y -> node ∉ wchildren y) /\
    registry w' = delete rootID (registry w1) /\
    renders (log w') = renders (log w).
Proof.
  intros Hm Ep Hnode.
  pose proof (mounted_in_at _ _ _ Hm) as Hat.
  apply mounted_at_inv in Hat as [Hid Hat].
  apply mounted_in_inv in Hm as Hinv. destruct Hinv as (_ & Hreg & Hcs).
  destruct (unmountChildren_total rootID (_renderedChildren this)) with
    (index := 0) (w := w) as [w1 E1]; [|done|done|].
  { apply Forall_forall. intros child _ id wa.
    apply unmountComponent_total. }
  assert (preserves (below rootID) unmount_call
            (for_each (fun _ child => unmountComponent child) 0
                      (_renderedChildren this))) as Hp.
  { apply preserves_for_each.
    eapply Forall_impl; [exact (Forall_index_Forall _ _ _ Hat)|].
    intros child [i Hi] _. simpl.
    eapply preserves_mono; [| |by apply unmountComponent_preserves];
      [|done]. intros k. apply under_below. }
  apply Hp in E1 as Hev. destruct Hev as [R1 S1 _ (d1 & L1 & Q1 & _)].
  assert (getParent rootID w1 = (w1, Ok parent)) as Ep1.
  { eapply getParent_frame; [|done..]. apply R1, not_below_parent. }
  assert (get rootID w1 = (w1, Ok node)) as Eg.
  { unfold get. by rewrite R1, Hnode by apply not_below_self. }
  eexists w1, _. split; [exact E1|]. split.
  { intros i child Hi.
    by eapply (unmountChildren_dropped rootID _ 0) in Hi. }
  split; [rewrite R1 by apply not_below_self; exact Hnode|].
  split.
  { rewrite unmountComponent_eq, Hid. unfold unmountChildren.
    unfold bind at 1. unfold bind at 1. rewrite E1. unfold ret at 1.
    rewrite (bind_ok _ _ _ _ _ Ep1), (bind_ok _ _ _ _ _ Eg).
    destruct this. reflexivity. }
  simpl. split; [by rewrite <- !app_assoc|]. split; [done|].
  split.
  { intros x Ex. apply detach_listeners in Ex as (x0 & E0 & ->).
    rewrite lookup_alter_eq in E0.
    destruct (widgets w1 !! node); [|done]. by injection E0 as <-. }
  split.
  { intros x y Ex Hx. apply detach_children with (x := clear_listeners x).
    - by rewrite lookup_alter_eq, Ex.
    - exact Hx. }
  split; [done|].
  rewrite L1, !renders_app, (renders_unmount_calls d1) by done.
  simpl. lia.
Qed.

(** *** Redraw requests *)

Lemma element_size_eq e :
  element_size e =
  S (list_sum (map element_size (childrenToUse (props_children e)))).
Proof. destruct e as [ty o [| |a|l]]; simpl; try done. Qed.

Lemma update_operations_eq this next :
  update_operations this next =
  S (operations_along update_operations (_renderedChildren this)
                      (childrenToUse (props_children next))).
Proof. by destruct this. Qed.

Lemma unmountComponent_calls this :
  preserves (fun _ => True) unmount_call (unmountComponent this).
Proof.
  induction this as [tag cur id cs IH] using instance_tree_ind.
  simpl unmountComponent. apply preserves_bind.
  - apply preserves_for_each. eapply Forall_impl; [exact IH|]. done.
  - intros _. destruct id as [id|]; [|apply preserves_throw].
    apply preserves_bind; [apply preserves_getParent|]. intros parent.
    apply preserves_bind; [apply preserves_get|]. intros node.
    apply preserves_bind; [by apply preserves_offAny|]. intros _.
    apply preserves_bind; [by apply preserves_remove|]. intros _.
    apply preserves_bind; [by apply preserves_drop|]. intros _.
    apply preserves_ret.
Qed.

Lemma unmountComponent_renders this w w' r :
  unmountComponent this w = (w', r) -> renders (log w') = renders (log w).
Proof.
  intros E. apply unmountComponent_calls in E as [_ _ _ (d & L & Q & _)].
  rewrite L, renders_app, (renders_unmount_calls d) by done. lia.
Qed.

Lemma for_each_renders {A B} (f : nat -> A -> M B) (g : A -> nat) l :
  Forall (fun a => forall i w w' b,
            f i a w = (w', Ok b) ->
            renders (log w') = renders (log w) + g a) l ->
  forall index w w' bs,
    for_each f index l w = (w', Ok bs) ->
    renders (log w') = renders (log w) + list_sum (map g l).
Proof.
  induction 1 as [|a l Ha _ IH]; intros index w w' bs; simpl.
  - unfold ret. intros [= <- _]. lia.
  - intros E. apply bind_inv_ok in E as (w1 & b & E1 & E).
    apply bind_inv_ok in E as (w2 & bs' & E2 & E).
    unfold ret in E. injection E as <- _.
    apply Ha in E1. apply IH in E2. lia.
Qed.

Lemma mountElement_renders element :
  forall this rootID w w' this',
    mountElement element this rootID w = (w', Ok this') ->
    renders (log w') = renders (log w) + element_size element.
Proof.
  induction element as [ty o c IH] using element_tree_ind.
  intros this rootID w w' this'. rewrite element_size_eq.
  simpl mountElement. rewrite for_children_eq. intros E.
  apply bind_inv_ok in E as (w1 & parent & Ep & E).
  apply getParent_world in Ep as ->.
  apply bind_inv_ok in E as (w2 & node & En & E).
  apply mountNode_inv in En as (_ & -> & ->).
  apply bind_inv_ok in E as (w3 & [] & Ea & E). injection Ea as <-.
  apply bind_inv_ok in E as (w4 & rendered & Er & E).
  apply bind_inv_ok in E as (w5 & [] & Ed & E). injection Ed as <-.
  unfold ret in E. injection E as <- _.
  eapply (for_each_renders _ element_size) in Er.
  - simpl in *. rewrite renders_app, Er, !renders_app. simpl. lia.
  - eapply Forall_impl; [exact IH|]. intros child Hc i wa wb b. apply Hc.
Qed.

Lemma mountComponent_renders this rootID w w' this' :
  mountComponent this rootID w = (w', Ok this') ->
  renders (log w') =
  renders (log w) + element_size (_currentElement this).
Proof. apply mountElement_renders. Qed.

Lemma reconcilerUpdateChildren_renders
  (receive : instance -> element -> M instance)
  (count : instance -> element -> nat) prevs :
  Forall (fun child => forall next w w' this',
            receive child next w = (w', Ok this') ->
            renders (log w') = renders (log w) + count child next) prevs ->
  forall nexts w w' cs,
    reconcilerUpdateChildren receive unmountComponent prevs nexts w
    = (w', Ok cs) ->
    renders (log w') + pending cs =
    renders (log w) + operations_along count prevs nexts.
Proof.
  induction 1 as [|prevChild prevs Hc _ IH]; intros nexts w w' cs.
  - simpl. unfold ret. intros [= <- <-]. f_equal. unfold pending.
    rewrite map_map. done.
  - destruct nexts as [|nextElement nexts]; simpl.
    + intros E. apply bind_inv_ok in E as (w1 & b & E1 & E).
      apply unmountComponent_renders in E1. apply IH in E.
      destruct prevs; simpl in E; lia.
    + intros E. apply bind_inv_ok in E as (w1 & c & E1 & E).
      apply bind_inv_ok in E as (w2 & cs' & E2 & E).
      unfold ret in E. injection E as <- <-. apply IH in E2.
      unfold pending in *. simpl.
      destruct (shouldUpdate _ _).
      * apply bind_inv_ok in E1 as (w3 & this' & E3 & E1).
        unfold ret in E1. injection E1 as <- <-. apply Hc in E3.
        simpl. lia.
      * apply bind_inv_ok in E1 as (w3 & b & E3 & E1).
        unfold ret in E1. injection E1 as <- <-.
        apply unmountComponent_renders in E3. simpl. lia.
Qed.

Lemma mountNewChildren_renders rootID cs :
  forall index w w' rendered,
    for_each (fun index (c : instance * bool) =>
                if snd c then ret (fst c)
                else mountComponent (fst c) (rootID ++ [index]))
             index cs w = (w', Ok rendered) ->
    renders (log w') = renders (log w) + pending cs.
Proof.
  intros index w w' rendered E. unfold pending.
  eapply for_each_renders; [|exact E].
  apply Forall_forall. intros [child kept] _ i wa wb b. simpl.
  destruct kept.
  - unfold ret. intros [= <- _]. lia.
  - apply mountComponent_renders.
Qed.

Lemma receiveComponent_renders this :
  forall next w w' this',
    receiveComponent this next w = (w', Ok this') ->
    renders (log w') = renders (log w) + update_operations this next.
Proof.
  induction this as [tag cur id cs IH] using instance_tree_ind.
  intros next w w' this'. rewrite receiveComponent_eq.
  simpl _rootNodeID. destruct id as [id|]; [|done]. intros E.
  apply bind_inv_ok in E as (w1 & node & Eg & E).
  assert (w1 = w) as ->.
  { revert Eg. unfold get. destruct (registry w !! id); by intros [= ->]. }
  apply bind_inv_ok in E as (w2 & [] & Eu & E). injection Eu as <-.
  apply bind_inv_ok in E as (w3 & rendered & Er & E).
  apply bind_inv_ok in E as (w4 & [] & Ed & E). injection Ed as <-.
  unfold ret in E. injection E as <- _.
  unfold updateChildren in Er.
  apply bind_inv_ok in Er as (w5 & nextChildren & En & Er).
  apply mountNewChildren_renders in Er.
  eapply (reconcilerUpdateChildren_renders _ update_operations) in En;
    [|exact IH].
  rewrite update_operations_eq. cbn [log _renderedChildren] in *.
  rewrite renders_app in *. simpl renders in *. lia.
Qed.

(** C4, as the code has it: every mount and every update requests a
    redraw of its own, so an operation that consists of [N] mounts and
    updates (a tree of [N] elements to mount, or an update with the
    updates and mounts of children it leads to) sends exactly [N]
    requests to the screen, and [N] is at least one. *)
Theorem redraw_per_operation op w w' this' :
  perform op w = (w', Ok this') ->
  renders (log w') = renders (log w) + operations op /\
  1 <= operations op.
Proof.
  destruct op as [this rootID|this next]; simpl; intros E.
  - apply mountComponent_renders in E. split; [done|].
    rewrite element_size_eq. lia.
  - apply receiveComponent_renders in E. split; [done|].
    rewrite update_operations_eq. lia.
Qed.

Arguments node_mounted : simpl never.

(** *** The widgets after a mount *)



Lemma preserves_for_each_from {A B} P Q (f : nat -> A -> M B) l :
  forall index,
    (forall i a, index <= i -> a ∈ l -> preserves P Q (f i a)) ->
    preserves P Q (for_each f index l).
Proof.
  induction l as [|a l IH]; intros index Hf; simpl.
  - apply preserves_ret.
  - apply preserves_bind; [apply Hf; [lia|apply list_elem_of_here]|].
    intros b. apply preserves_bind; [|intros; apply preserves_ret].
    apply IH. intros i c Hi Hc. apply Hf; [lia|].
    by apply list_elem_of_further.
Qed.

Lemma mountChildren_from_preserves rootID index cs :
  preserves (fun k => exists j, index <= j /\ under (rootID ++ [j]) k)
            any_call
            (for_each (fun index child =>
                         mountElement child (instantiate child)
                                      (rootID ++ [index])) index cs).
Proof.
  apply preserves_for_each_from. intros i child Hi _.
  eapply preserves_mono; [| |apply mountElement_preserves]; [|done].
  intros k Uk. by exists i.
Qed.


Lemma add_inv id node w w' r :
  add id node w = (w', r) ->
  w' = World (<[id := node]> (registry w)) (screen w) (widgets w)
             (next_handle w) (log w ++ [RegistryAdd id node]).
Proof. by intros [= <- _]. Qed.

Lemma debouncedRender_inv w w' r :
  debouncedRender w = (w', r) ->
  w' = World (registry w) (screen w) (widgets w) (next_handle w)
             (log w ++ [DebouncedRender]).
Proof. by intros [= <- _]. Qed.



(** *** The registry entry of a node and the mounts of its children *)


End Properties.

(** *** The reconcile transaction *)

(** C9: the constructor gives the transaction a queue with no callback in
    it, a new one or the last one released to the pool, which it takes out
    of the pool; whatever the pass enqueues, the destructor releases this
    queue, emptied, to the pool (if there is room) and leaves the
    transaction without a queue. *)
Theorem callback_queue_lifetime this s :
  let s1 := fst (ReactBlessedReconcileTransaction.ReactBlessedReconcileTransaction this s) in
  let tx := snd (ReactBlessedReconcileTransaction.ReactBlessedReconcileTransaction this s) in
  exists q,
    ReactBlessedReconcileTransaction.getReactMountReady tx = Some q /\
    CallbackQueue.queues s1 !! q = Some None /\
    CallbackQueue.callbacks_of q s1 = [] /\
    ((CallbackQueue.instancePool s = [] /\ q = CallbackQueue.next_queue s /\
      CallbackQueue.instancePool s1 = []) \/
     (last (CallbackQueue.instancePool s) = Some q /\
      CallbackQueue.instancePool s1
      = removelast (CallbackQueue.instancePool s))) /\
    forall s2,
      exists tx',
        ReactBlessedReconcileTransaction.destructor tx s2
        = Some (CallbackQueue.release q s2, tx') /\
        ReactBlessedReconcileTransaction.reactMountReady tx' = None /\
        CallbackQueue.callbacks_of q (CallbackQueue.release q s2) = [] /\
        (length (CallbackQueue.instancePool s2) < CallbackQueue.poolSize ->
         CallbackQueue.instancePool (CallbackQueue.release q s2)
         = CallbackQueue.instancePool s2 ++ [q]).
Proof.
  unfold ReactBlessedReconcileTransaction.ReactBlessedReconcileTransaction,
    CallbackQueue.getPooled.
  destruct (last (CallbackQueue.instancePool s)) as [q|] eqn:El; simpl.
  - exists q. unfold CallbackQueue.callbacks_of. simpl.
    rewrite lookup_insert_eq. repeat split; try done; [by right|].
    intros s2. eexists. split; [done|]. split; [done|].
    unfold CallbackQueue.release, CallbackQueue.callbacks_of.
    split.
    + destruct (decide _); simpl; by rewrite lookup_insert_eq.
    + intros Hl. destruct (decide _) as [_|Hn]; [done|].
      simpl in Hn. lia.
  - exists (CallbackQueue.next_queue s).
    unfold CallbackQueue.callbacks_of. simpl.
    rewrite lookup_insert_eq. apply last_None in El.
    repeat split; try done; [left; by rewrite El|].
    intros s2. eexists. split; [done|]. split; [done|].
    unfold CallbackQueue.release, CallbackQueue.callbacks_of.
    split.
    + destruct (decide _); simpl; by rewrite lookup_insert_eq.
    + intros Hl. destruct (decide _) as [_|Hn]; [done|].
      simpl in Hn. lia.
Qed.

(** *** The handlers after an update *)

(** C3, which the code does not meet: a box is mounted with the handler
    number 1 under [onClick] and updated to an element that has the handler
    number 2 there; the update succeeds, and a click dispatched to the
    component afterwards calls the handler number 1. *)
Theorem stale_handler_after_update :
  let w1 := fst (Examples.mounted (Examples.clickable 1)) in
  let this1 := snd (Examples.mounted (Examples.clickable 1)) in
  exists w2 this2,
    receiveComponent (collaborators := Examples.collaborators)
      this1 (Examples.clickable 2) w1 = (w2, Ok this2) /\
    props_get (Examples.clickable 2) "onClick" = PropValue (PFun 2) /\
    dispatcher (collaborators := Examples.collaborators)
      this2 "click" [PStr "left"] w2
    = emit (CallHandler 1 [PStr "left"]) w2.
Proof. eexists _, _. split; [|split]; vm_compute; reflexivity. Qed.

(** *** One redraw for each operation *)

(** C4 does not hold as stated: the pass that mounts a box with one box
    inside consists of two mounts, and sends two redraw requests. *)
Lemma two_mounts_two_redraws :
  exists w' this',
    perform (collaborators := Examples.collaborators)
      (Mount (ReactMultiChild.instantiate Examples.pair_of_boxes) [0])
      Examples.empty_world = (w', Ok this') /\
    operations (Mount (ReactMultiChild.instantiate Examples.pair_of_boxes)
                      [0]) = 2 /\
    renders (log Examples.empty_world) = 0 /\
    renders (log w') = 2 /\
    renders (log w') <> 1.
Proof.
  eexists _, _. split; [vm_compute; reflexivity|].
  repeat split; try (vm_compute; reflexivity). vm_compute. discriminate.
Qed.

(** *** The theorems at work on the examples *)


Lemma mount_unknown_widget_type_witness :
  mountComponent (collaborators := Examples.collaborators)
    (ReactMultiChild.instantiate (Examples.leaf "NoSuchWidget")) [0]
    Examples.empty_world
  = (Examples.empty_world, Err (UnknownWidgetType "NoSuchWidget")).
Proof.
  apply (mount_unknown_widget_type
           (collaborators := Examples.collaborators)
           (ReactMultiChild.instantiate (Examples.leaf "NoSuchWidget")) [0]
           0 Examples.empty_world).
  - vm_compute. reflexivity.
  - vm_compute. reflexivity.
Defined.

Lemma redraw_per_operation_witness :
  renders (log (fst (Examples.mounted Examples.tree))) = 0 + 4 /\ 1 <= 4.
Proof.
  apply (redraw_per_operation
           (collaborators := Examples.collaborators)
           (Mount (ReactMultiChild.instantiate Examples.tree) [0])
           Examples.empty_world
           (fst (Examples.mounted Examples.tree))
           (snd (Examples.mounted Examples.tree))).
  vm_compute. reflexivity.
Defined.

Lemma unmount_order_witness :
  let w := fst (Examples.mounted Examples.tree) in
  let this := snd (Examples.mounted Examples.tree) in
  exists w1 w',
    unmountComponent this w = (w', Ok (unmounted this)) /\
    log w' = log w1 ++ [OffAny 1; Remove 0 1; RegistryDrop [0]] /\
    renders (log w') = renders (log w).
Proof.
  intros w this.
  destruct (unmount_order this [0] 0 1 w)
    as (w1 & w' & _ & _ & _ & E & L & _ & _ & _ & _ & R).
  - vm_compute. repeat split; eauto.
  - vm_compute. reflexivity.
  - vm_compute. reflexivity.
  - exists w1, w'. auto.
Defined.


(** An update that keeps a child and replaces another: the widget of the
    replacement (handle 5) is appended after the widget of the child kept
    (handle 3), although its element comes first; React's queue of child
    moves is not processed. *)
Example replacement_is_appended_after_kept :
  let w := fst (Examples.mounted Examples.tree) in
  let this := snd (Examples.mounted Examples.tree) in
  let next :=
    Element "box" ∅
      (ChildrenMany [Examples.leaf "list";
                     Element "list" ∅ (ChildrenOne (Examples.leaf "box"))]) in
  exists w' this',
    receiveComponent (collaborators := Examples.collaborators) this next w
    = (w', Ok this') /\
    wchildren <$> widgets w !! 1 = Some [2; 3] /\
    wchildren <$> widgets w' !! 1 = Some [3; 5] /\
    registry w' !! [0; 0] = Some 5 /\
    registry w' !! [0; 1] = Some 3.
Proof. eexists _, _. repeat split; vm_compute; reflexivity. Qed.


(** ** Further properties *)

Section FurtherProperties.

Context {collaborators : Collaborators}.

Import ReactBlessedIDOperations Blessed ReactMultiChild.

(** *** The outcome of a mount *)






(** *** The component tree that a mount builds *)

Lemma build_eq e id :
  build e id =
  Instance (toLowerCase (type e)) e (Some id)
           (map_index (fun index c => build c (id ++ [index])) 0
                      (childrenToUse (props_children e))).
Proof. by destruct e as [ty o [| |a|l]]. Qed.

Lemma mountChildren_build rootID cs :
  Forall (fun c => forall id w w' this',
            mountElement c (instantiate c) id w = (w', Ok this') ->
            this' = build c id) cs ->
  forall index w w' ks,
    for_each (fun index child =>
                mountElement child (instantiate child) (rootID ++ [index]))
             index cs w = (w', Ok ks) ->
    ks = map_index (fun index c => build c (rootID ++ [index])) index cs.
Proof.
  induction 1 as [|c cs Hc _ IH]; intros index w w' ks; simpl.
  - unfold ret. by intros [= _ <-].
  - intros E. apply bind_inv_ok in E as (w1 & k & E1 & E).
    apply bind_inv_ok in E as (w2 & ks' & E2 & E).
    unfold ret in E. injection E as _ <-.
    f_equal; eauto.
Qed.

Lemma mountElement_build element :
  forall this rootID w w' this',
    mountElement element this rootID w = (w', Ok this') ->
    this' = Instance (_tag this) (_currentElement this) (Some rootID)
              (map_index (fun index c => build c (rootID ++ [index])) 0
                         (childrenToUse (props_children element))).
Proof.
  induction element as [ty o c IH] using element_tree_ind.
  intros this rootID w w' this'. simpl mountElement.
  rewrite for_children_eq. intros E.
  apply bind_inv_ok in E as (w1 & parent & _ & E).
  apply bind_inv_ok in E as (w2 & node & _ & E).
  apply bind_inv_ok in E as (w3 & [] & _ & E).
  apply bind_inv_ok in E as (w4 & rendered & Er & E).
  apply bind_inv_ok in E as (w5 & [] & _ & E).
  unfold ret in E. injection E as _ <-.
  eapply mountChildren_build in Er.
  - rewrite Er. by destruct this.
  - eapply Forall_impl; [exact IH|]. intros child Hc id wa wb k Ek.
    apply Hc in Ek. rewrite Ek, build_eq. done.
Qed.

Lemma mountElement_registered element this rootID w w' this' :
  mountElement element this rootID w = (w', Ok this') ->
  registry w' !! rootID = Some (next_handle w) /\
  next_handle w < next_handle w'.
Proof.
  destruct element as [ty o c]. simpl mountElement.
  rewrite for_children_eq. intros E.
  apply bind_inv_ok in E as (w1 & parent & Ep & E).
  apply getParent_world in Ep as ->.
  apply bind_inv_ok in E as (w2 & node & En & E).
  apply mountNode_inv in En as (_ & -> & ->).
  apply bind_inv_ok in E as (w3 & [] & Ea & E). apply add_inv in Ea as ->.
  apply bind_inv_ok in E as (w4 & rendered & Er & E).
  apply (mountChildren_preserves rootID (childrenToUse c)) in Er
    as [Rr _ Nr _].
  apply bind_inv_ok in E as (w5 & [] & Ed & E).
  apply debouncedRender_inv in Ed as ->.
  unfold ret in E. injection E as <- _. cbn [registry next_handle] in *.
  rewrite Rr by apply not_below_self. rewrite lookup_insert_eq.
  rewrite node_mounted_next in Nr. split; [done|lia].
Qed.

(** Every component of a tree just mounted is registered. *)
Lemma mountChildren_mounted_in rootID cs :
  Forall (fun c => forall this id w w' this',
            mountElement c this id w = (w', Ok this') ->
            mounted_in (registry w') id this') cs ->
  forall index w w' ks,
    for_each (fun index child =>
                mountElement child (instantiate child) (rootID ++ [index]))
             index cs w = (w', Ok ks) ->
    Forall_index (fun i child => mounted_in (registry w') (rootID ++ [i])
                                            child) index ks.
Proof.
  induction 1 as [|c cs Hc _ IH]; intros index w w' ks; simpl.
  - unfold ret. by intros [= _ <-].
  - intros E. apply bind_inv_ok in E as (w1 & k & E1 & E).
    apply bind_inv_ok in E as (w2 & ks' & E2 & E).
    unfold ret in E. injection E as <- <-. simpl. split; [|eauto].
    apply Hc in E1.
    pose proof (mountChildren_from_preserves rootID (S index) cs _ _ _ E2)
      as [R2 _ _ _].
    eapply mounted_in_ext; [|exact E1]. intros k' Uk. apply R2.
    intros (j & Hj & Uj).
    apply (siblings_disjoint rootID index j k'); [lia|done|done].
Qed.

Lemma mountElement_mounted_in element :
  forall this rootID w w' this',
    mountElement element this rootID w = (w', Ok this') ->
    mounted_in (registry w') rootID this'.
Proof.
  induction element as [ty o c IH] using element_tree_ind.
  intros this rootID w w' this' E.
  destruct (mountElement_registered _ _ _ _ _ _ E) as [Hr _].
  revert E. simpl mountElement. rewrite for_children_eq. intros E.
  apply bind_inv_ok in E as (w1 & parent & _ & E).
  apply bind_inv_ok in E as (w2 & node & _ & E).
  apply bind_inv_ok in E as (w3 & [] & _ & E).
  apply bind_inv_ok in E as (w4 & rendered & Er & E).
  apply bind_inv_ok in E as (w5 & [] & Ed & E).
  apply debouncedRender_inv in Ed as ->.
  unfold ret in E. injection E as <- <-.
  split; [done|]. split; [by eexists|]. simpl.
  by eapply (mountChildren_mounted_in rootID) in Er.
Qed.

(** X2: the component that a mount returns is the component it was
    given, with the identifier of the mount and, as rendered children, the
    component trees of the children of its element: one component for each
    element, holding that element, tagged with the type in lower case and
    identified by the path of child indices from the root. Every component
    of the tree has its registry entry. *)
Theorem mount_builds_component_tree this rootID w w' this' :
  mountComponent this rootID w = (w', Ok this') ->
  this' = Instance (_tag this) (_currentElement this) (Some rootID)
            (map_index (fun index c => build c (rootID ++ [index])) 0
               (childrenToUse (props_children (_currentElement this)))) /\
  (this = instantiate (_currentElement this) ->
   this' = build (_currentElement this) rootID) /\
  mounted_in (registry w') rootID this'.
Proof.
  intros E. split; [by apply mountElement_build in E|]. split.
  - intros Ht. apply mountElement_build in E. rewrite E, build_eq.
    by rewrite Ht.
  - by apply mountElement_mounted_in in E.
Qed.

(** *** Runs in a relation *)

Lemma respects_ret {A} (R : world -> world -> Prop) `{!Reflexive R} (a : A) :
  respects R (ret a).
Proof. by intros w w' r [= <- _]. Qed.

Lemma respects_throw {A} (R : world -> world -> Prop) `{!Reflexive R} e :
  respects R (@throw A e).
Proof. by intros w w' r [= <- _]. Qed.

Lemma respects_bind {A B} (R : world -> world -> Prop)
  `{!Reflexive R, !Transitive R} (m : M A) (k : A -> M B) :
  respects R m -> (forall a, respects R (k a)) -> respects R (bind m k).
Proof.
  intros Hm Hk w w' r E.
  apply bind_inv in E as [(w1 & a & E1 & E2)|(e & E1 & _)].
  - etrans; [by eapply Hm|by eapply Hk].
  - by eapply Hm.
Qed.

Lemma respects_for_each {A B} (R : world -> world -> Prop)
  `{!Reflexive R, !Transitive R} (f : nat -> A -> M B) index l :
  Forall (fun a => forall i, respects R (f i a)) l ->
  respects R (for_each f index l).
Proof.
  intros Hl. revert index.
  induction Hl as [|a l Ha Hl IH]; intros index; simpl.
  - by apply respects_ret.
  - apply respects_bind; [done..|apply Ha|]. intros b.
    apply respects_bind; [done..|apply IH|]. intros bs.
    by apply respects_ret.
Qed.

(** *** An unmount only deletes *)

#[local] Instance only_deletes_refl : Reflexive only_deletes.
Proof. intros w k. by right. Qed.

#[local] Instance only_deletes_trans : Transitive only_deletes.
Proof.
  intros w1 w2 w3 H12 H23 k.
  destruct (H23 k) as [-> | ->]; [by left|apply H12].
Qed.

Lemma only_deletes_same w w' : registry w' = registry w -> only_deletes w w'.
Proof. intros E k. right. by rewrite E. Qed.

Lemma only_deletes_None w w' k :
  only_deletes w w' -> registry w !! k = None -> registry w' !! k = None.
Proof. intros H E. destruct (H k) as [-> | ->]; done. Qed.

Lemma get_world id w w' r : get id w = (w', r) -> w' = w.
Proof. unfold get. destruct (registry w !! id); by intros [= <- _]. Qed.

Lemma unmountComponent_only_deletes this :
  respects only_deletes (unmountComponent this).
Proof.
  induction this as [tag cur id cs IH] using instance_tree_ind.
  simpl unmountComponent. apply respects_bind; [apply _..| |].
  - apply respects_for_each; [apply _..|].
    eapply Forall_impl; [exact IH|]. done.
  - intros _. destruct id as [id|]; [|apply respects_throw; apply _].
    apply respects_bind; [apply _..| |].
    { intros w w' r E. apply getParent_world in E as ->. reflexivity. }
    intros parent. apply respects_bind; [apply _..| |].
    { intros w w' r E. apply get_world in E as ->. reflexivity. }
    intros node. apply respects_bind; [apply _..| |].
    { intros w w' r [= <- _]. by apply only_deletes_same. }
    intros _. apply respects_bind; [apply _..| |].
    { intros w w' r [= <- _]. by apply only_deletes_same. }
    intros _. apply respects_bind; [apply _..| |].
    { intros w w' r [= <- _] k. simpl.
      destruct (decide (id = k)) as [->|Hk].
      - left. apply lookup_delete_eq.
      - right. by apply lookup_delete_ne. }
    intros _. apply respects_ret; apply _.
Qed.

(** X11: whatever the component and whatever the outcome, an unmount
    adds no registry entry, creates no widget, and makes no call but
    [offAny], [remove] and [drop]: in particular it requests no redraw and
    applies no option. *)
Theorem unmount_only_detaches this w w' r :
  unmountComponent this w = (w', r) ->
  (forall k, registry w' !! k = None \/ registry w' !! k = registry w !! k) /\
  next_handle w' = next_handle w /\
  screen w' = screen w /\
  exists delta, log w' = log w ++ delta /\ Forall unmount_call delta /\
                renders delta = 0 /\ creations delta = 0.
Proof.
  intros E. split; [by apply unmountComponent_only_deletes in E|].
  assert (forall l, Forall unmount_call l -> creations l = 0) as Hc.
  { induction 1 as [|c l Hc _ IH]; [done|]. by destruct c. }
  assert (respects (fun w w' => next_handle w' = next_handle w)
                   (unmountComponent this)) as Hn.
  { clear. induction this as [tag cur id cs IH] using instance_tree_ind.
    assert (Reflexive (fun w w' : world => next_handle w' = next_handle w))
      by done.
    assert (Transitive (fun w w' : world => next_handle w' = next_handle w))
      by (intros w1 w2 w3; simpl; congruence).
    simpl unmountComponent. apply respects_bind; [done..| |].
    - apply respects_for_each; [done..|].
      eapply Forall_impl; [exact IH|]. done.
    - intros _. destruct id as [id|]; [|by apply respects_throw].
      apply respects_bind; [done..| |].
      { intros w w' r E. by apply getParent_world in E as ->. }
      intros parent. apply respects_bind; [done..| |].
      { intros w w' r E. by apply get_world in E as ->. }
      intros node. apply respects_bind; [done..|by intros w w' r [= <- _]|].
      intros _. apply respects_bind; [done..|by intros w w' r [= <- _]|].
      intros _. apply respects_bind; [done..|by intros w w' r [= <- _]|].
      intros _. by apply respects_ret. }
  split; [by apply Hn in E|].
  apply unmountComponent_calls in E as [_ S _ (d & L & Q & _)].
  split; [done|]. exists d. split; [done|]. split; [done|].
  split; [by apply renders_unmount_calls|by apply Hc].
Qed.

(** *** Mount, then unmount *)

Lemma tree_ids_eq this :
  tree_ids this =
  match _rootNodeID this with
  | Some id => [id]
  | None => []
  end ++ flat_map tree_ids (_renderedChildren this).
Proof. by destruct this. Qed.

(** A successful unmount leaves no registry entry for any component of
    the tree. *)
Lemma unmountComponent_drops_all this :
  forall w w' this',
    unmountComponent this w = (w', Ok this') ->
    forall k, In k (tree_ids this) -> registry w' !! k = None.
Proof.
  induction this as [tag cur id cs IH] using instance_tree_ind.
  intros w w' this'. rewrite unmountComponent_eq. unfold unmountChildren.
  simpl _renderedChildren. simpl _rootNodeID. intros E.
  apply bind_inv_ok in E as (w1 & [] & Ec & E).
  apply bind_inv_ok in Ec as (w0 & bs & Ec & Er).
  unfold ret in Er. injection Er as ->.
  destruct id as [id|]; [|done].
  assert (only_deletes w1 w') as Hd.
  { apply (unmountComponent_only_deletes (Instance tag cur (Some id) [])) 
      with (r := Ok this'). simpl. unfold bind at 1. simpl. exact E. }
  assert (registry w' !! id = None) as Hid.
  { apply bind_inv_ok in E as (w2 & p & _ & E).
    apply bind_inv_ok in E as (w3 & node & _ & E).
    apply bind_inv_ok in E as (w4 & [] & _ & E).
    apply bind_inv_ok in E as (w5 & [] & _ & E).
    apply bind_inv_ok in E as (w6 & [] & Ed & E).
    unfold ret in E. injection E as <- _. injection Ed as <-. simpl.
    apply lookup_delete_eq. }
  intros k. rewrite tree_ids_eq. simpl. intros [<-|Hk]; [done|].
  apply (only_deletes_None w1); [done|].
  clear E Hd Hid. revert w bs Ec Hk. generalize 0.
  induction IH as [|c cs Hc _ IHcs]; intros n w bs; simpl; [done|].
  intros E Hk. apply bind_inv_ok in E as (wa & b & Ea & E).
  apply bind_inv_ok in E as (wb & bs' & Eb & E).
  unfold ret in E. injection E as <- _.
  apply in_app_iff in Hk as [Hk|Hk]; [|by eapply IHcs].
  assert (respects only_deletes
            (for_each (fun _ child => unmountComponent child) (S n) cs))
    as Hrest.
  { apply respects_for_each; [apply _..|]. apply Forall_forall.
    intros child _ _. apply unmountComponent_only_deletes. }
  apply (only_deletes_None wa); [by eapply Hrest|]. by eapply Hc.
Qed.

(** A mount adds registry entries for the components of the tree only. *)
Lemma mountChildren_adds rootID cs :
  Forall (fun c => forall this id w w' this',
            mountElement c this id w = (w', Ok this') ->
            forall k, ~ In k (tree_ids this') ->
                      registry w' !! k = registry w !! k) cs ->
  forall index w w' ks,
    for_each (fun index child =>
                mountElement child (instantiate child) (rootID ++ [index]))
             index cs w = (w', Ok ks) ->
    forall k, ~ In k (flat_map tree_ids ks) ->
              registry w' !! k = registry w !! k.
Proof.
  induction 1 as [|c cs Hc _ IH]; intros index w w' ks; simpl.
  - unfold ret. by intros [= <- _].
  - intros E k. apply bind_inv_ok in E as (w1 & b & E1 & E).
    apply bind_inv_ok in E as (w2 & bs & E2 & E).
    unfold ret in E. injection E as <- <-. simpl.
    rewrite in_app_iff. intros Hk.
    erewrite IH by (done || tauto). eapply Hc; [done|tauto].
Qed.

Lemma mountElement_adds element :
  forall this rootID w w' this',
    mountElement element this rootID w = (w', Ok this') ->
    forall k, ~ In k (tree_ids this') ->
              registry w' !! k = registry w !! k.
Proof.
  induction element as [ty o c IH] using element_tree_ind.
  intros this rootID w w' this'. simpl mountElement.
  rewrite for_children_eq. intros E.
  apply bind_inv_ok in E as (w1 & parent & Ep & E).
  apply getParent_world in Ep as ->.
  apply bind_inv_ok in E as (w2 & node & En & E).
  apply mountNode_inv in En as (_ & -> & ->).
  apply bind_inv_ok in E as (w3 & [] & Ea & E). apply add_inv in Ea as ->.
  apply bind_inv_ok in E as (w4 & rendered & Er & E).
  apply bind_inv_ok in E as (w5 & [] & Ed & E).
  apply debouncedRender_inv in Ed as ->.
  unfold ret in E. injection E as <- <-. intros k.
  rewrite tree_ids_eq. simpl. intros Hk. cbn [registry].
  erewrite (mountChildren_adds rootID) by (done || tauto).
  cbn [registry]. rewrite lookup_insert_ne by (intros ->; tauto). done.
Qed.

Lemma removelast_not_under rootID : rootID <> [] -> ~ under rootID (removelast rootID).
Proof.
  intros Hne U. apply prefix_length in U.
  destruct rootID as [|a l] using rev_ind; [done|].
  rewrite removelast_last, length_app in U. simpl in U. lia.
Qed.

(** X3: when nothing is registered at or under the identifier, mounting a
    tree there and unmounting the component obtained always succeeds and
    gives back the registry as it was before the mount; the component is
    left without identifier and without rendered children, and neither
    its public instance nor the identifier resolves any more. *)
Theorem mount_unmount_round_trip this rootID w w1 this1 :
  rootID <> [] ->
  (forall k, under rootID k -> registry w !! k = None) ->
  mountComponent this rootID w = (w1, Ok this1) ->
  exists w2,
    unmountComponent this1 w1 = (w2, Ok (unmounted this1)) /\
    registry w2 = registry w /\
    screen w2 = screen w /\
    _rootNodeID (unmounted this1) = None /\
    _renderedChildren (unmounted this1) = [] /\
    getPublicInstance (unmounted this1) w2 = (w2, Err UnknownNode) /\
    get rootID w2 = (w2, Err UnknownNode).
Proof.
  intros Hne Hfree Em.
  pose proof (mountElement_mounted_in _ _ _ _ _ _ Em) as Hin.
  pose proof (mounted_in_at _ _ _ Hin) as Hat.
  pose proof (mountComponent_preserves _ _ _ _ _ Em) as [Rm Sm _ _].
  assert (exists p, getParent rootID w1 = (w1, Ok p)) as Hp.
  { revert Em. rewrite mountComponent_eq. cbv zeta. intros Em.
    apply bind_inv_ok in Em as (w0 & p & Ep & _).
    apply getParent_world in Ep as Ew. subst w0. exists p.
    eapply getParent_frame; [|done..].
    by apply Rm, removelast_not_under. }
  destruct (unmountComponent_total _ _ _ Hin Hp) as [w2 Eu].
  pose proof (unmountComponent_preserves _ _ Hat _ _ _ Eu) as [Ru Su _ _].
  pose proof (unmountComponent_only_deletes _ _ _ _ Eu) as Hd.
  assert (registry w2 = registry w) as Hreg.
  { apply map_eq. intros k.
    destruct (decide (rootID `prefix_of` k)) as [Uk|Uk].
    - rewrite (Hfree k Uk).
      destruct (decide (k ∈ tree_ids this1)) as [Hk|Hk];
        rewrite list_elem_of_In in Hk.
      + by eapply unmountComponent_drops_all.
      + apply (only_deletes_None w1); [done|].
        rewrite (mountElement_adds _ _ _ _ _ _ Em k Hk). by apply Hfree.
    - by rewrite Ru, Rm. }
  exists w2. split; [done|]. split; [done|]. split; [congruence|].
  split; [done|]. split; [done|]. split; [done|].
  unfold get. by rewrite Hreg, Hfree by apply under_self.
Qed.

(** *** The public instance *)

(** X4: the public instance of a mounted component is the widget that
    the mount created, and it is still that widget after any sequence of
    updates that succeeds; asking for it changes nothing. *)
Theorem public_instance_is_mount_widget this0 rootID w0 w this nexts w' this' :
  mountComponent this0 rootID w0 = (w, Ok this) ->
  receiveAll this nexts w = (w', Ok this') ->
  getPublicInstance this w = (w, Ok (next_handle w0)) /\
  getPublicInstance this' w' = (w', Ok (next_handle w0)).
Proof.
  intros Em Er.
  pose proof (mountComponent_mounted_at _ _ _ _ _ Em) as Hm.
  destruct (mountComponent_registered _ _ _ _ _ Em) as [Hh Hn].
  destruct (receiveAll_identity _ _ _ _ _ _ _ Hm Hh Hn Er)
    as (Hh' & Hid & _).
  apply mounted_at_inv in Hm as [Hid0 _].
  unfold getPublicInstance, get.
  by rewrite Hid0, (Hid this' eq_refl), Hh, Hh'.
Qed.

(** *** What the operations leave alone *)

(** X6: an update of a mounted component changes no registry entry but
    those of identifiers strictly under its own, an unmount none but those
    at or under its own, and neither changes the screen, whatever the
    outcome. *)
Theorem subtree_isolation this rootID next w :
  mounted_at rootID this ->
  ((forall k, ~ below rootID k ->
      registry (fst (receiveComponent this next w)) !! k = registry w !! k) /\
   screen (fst (receiveComponent this next w)) = screen w) /\
  ((forall k, ~ under rootID k ->
      registry (fst (unmountComponent this w)) !! k = registry w !! k) /\
   screen (fst (unmountComponent this w)) = screen w).
Proof.
  intros Hm. split.
  - destruct (receiveComponent this next w) as [wr r] eqn:E.
    by apply (receiveComponent_preserves _ _ _ Hm) in E as [R S _ _].
  - destruct (unmountComponent this w) as [wu r] eqn:E.
    by apply (unmountComponent_preserves _ _ Hm) in E as [R S _ _].
Qed.

(** *** What a mount does and does not *)











(** *** Updates that keep every component *)

Lemma only_updates_refl w : only_updates w w.
Proof. repeat split. exists []. by rewrite app_nil_r. Qed.

Lemma only_updates_trans w1 w2 w3 :
  only_updates w1 w2 -> only_updates w2 w3 -> only_updates w1 w3.
Proof.
  intros (R1 & N1 & S1 & d1 & L1 & Q1) (R2 & N2 & S2 & d2 & L2 & Q2).
  split; [congruence|]. split; [congruence|]. split; [congruence|].
  exists (d1 ++ d2). rewrite L2, L1, app_assoc. split; [done|].
  by apply Forall_app.
Qed.

Lemma reconcilerUpdateChildren_quiet rootID cs :
  Forall quiet_update cs ->
  forall index nexts w,
    Forall_index (fun i child => mounted_in (registry w) (rootID ++ [i])
                                            child) index cs ->
    All2 (fun e child =>
            shouldUpdate (_currentElement child) e = true /\
            keeps_all child e) nexts cs ->
    exists w',
      reconcilerUpdateChildren receiveComponent unmountComponent cs nexts w
      = (w', Ok (map (fun child => (child, true)) cs)) /\
      only_updates w w'.
Proof.
  induction 1 as [|c cs Hc _ IH]; intros index nexts w Hm Ha.
  - destruct nexts; [|done]. simpl. exists w. split; [done|].
    apply only_updates_refl.
  - destruct nexts as [|e nexts]; [done|].
    destruct Hm as [Hm Hms]. destruct Ha as [[Hs Hk] Ha].
    destruct (Hc _ e w Hm Hk) as (w1 & E1 & U1).
    destruct (IH (S index) nexts w1) as (w2 & E2 & U2); [|done|].
    { destruct U1 as (R1 & _). by rewrite R1. }
    exists w2. split; [|by eapply only_updates_trans].
    simpl. rewrite Hs. unfold bind at 1. unfold bind at 1.
    rewrite E1. unfold ret at 1. unfold bind at 1. by rewrite E2.
Qed.

Lemma mountNewChildren_kept rootID cs index w :
  for_each (fun index (c : instance * bool) =>
              if snd c then ret (fst c)
              else mountComponent (fst c) (rootID ++ [index]))
           index (map (fun child => (child, true)) cs) w
  = (w, Ok cs).
Proof.
  revert index. induction cs as [|c cs IH]; intros index; simpl; [done|].
  unfold bind at 1. unfold ret at 1. unfold bind at 1. by rewrite IH.
Qed.

Lemma receiveComponent_quiet this : quiet_update this.
Proof.
  induction this as [tag cur rid cs IH] using instance_tree_ind.
  intros id next w (Hid & [node Hnode] & Hcs) Hk.
  simpl in Hid, Hcs. subst rid.
  rewrite receiveComponent_eq. cbn [_rootNodeID _renderedChildren].
  assert (get id w = (w, Ok node)) as Eg by (unfold get; by rewrite Hnode).
  rewrite (bind_ok _ _ _ _ _ Eg).
  set (w1 := fst (update node (solveClass (props_rest next)) w)).
  assert (update node (solveClass (props_rest next)) w = (w1, Ok tt)) as Eu
      by done.
  rewrite (bind_ok _ _ _ _ _ Eu).
  destruct (reconcilerUpdateChildren_quiet id cs IH 0
              (childrenToUse (props_children next)) w1 Hcs Hk)
    as (w2 & E2 & R2 & N2 & S2 & d2 & L2 & Q2).
  eexists. split.
  - unfold updateChildren. unfold bind at 1. unfold bind at 1.
    rewrite E2. unfold mountNewChildren. rewrite mountNewChildren_kept.
    reflexivity.
  - simpl. split; [done|]. split; [done|]. split; [done|].
    exists ([ApplyOptions node (solveClass (props_rest next))] ++ d2
              ++ [DebouncedRender]).
    rewrite L2. simpl. rewrite <- !app_assoc. split; [done|].
    constructor; [done|]. apply Forall_app. split; [done|].
    by repeat constructor.
Qed.

(** X7: an update of a mounted component to a tree that has, at every
    depth, as many children as the component has rendered children, each
    of the type of the element that its component holds, always succeeds
    and mounts and unmounts nothing: the component tree is returned as it
    was, the registry and the handles are unchanged, and the only calls
    are [update] and the request for a redraw, one of each for every
    component of the tree. *)
Theorem update_that_keeps_all this rootID next w :
  mounted_in (registry w) rootID this ->
  keeps_all this next ->
  exists w',
    receiveComponent this next w = (w', Ok this) /\
    registry w' = registry w /\
    next_handle w' = next_handle w /\
    (exists delta, log w' = log w ++ delta /\ Forall update_call delta) /\
    renders (log w') = renders (log w) + update_operations this next.
Proof.
  intros Hm Hk.
  destruct (receiveComponent_quiet this rootID next w Hm Hk)
    as (w' & E & R & N & _ & D).
  exists w'. split; [done|]. split; [done|]. split; [done|].
  split; [done|]. by apply receiveComponent_renders in E.
Qed.

(** *** The shape of the component tree after an update *)

Lemma All2_length {A B} (P : A -> B -> Prop) l1 l2 :
  All2 P l1 l2 -> length l2 = length l1.
Proof.
  revert l1. induction l2 as [|b l2 IH]; intros [|a l1]; simpl; try done.
  intros [_ H]. f_equal. by apply IH.
Qed.

Lemma build_shaped e : forall id, shaped (build e id) e.
Proof.
  induction e as [ty o c IH] using element_tree_ind. intros id.
  rewrite build_eq. split; [done|]. simpl.
  generalize 0. induction IH as [|a l Ha _ IHl]; intros n; simpl; [done|].
  split; [apply Ha|apply IHl].
Qed.

Lemma map_index_shaped rootID cs index :
  All2 (fun e child => shaped child e) cs
       (map_index (fun index c => build c (rootID ++ [index])) index cs).
Proof.
  revert index. induction cs as [|c cs IH]; intros index; simpl; [done|].
  split; [apply build_shaped|apply IH].
Qed.

Lemma reconcilerUpdateChildren_shaped receive prevs :
  Forall (fun child => forall next w w' this',
            type (_currentElement child) = type next ->
            receive child next w = (w', Ok this') -> shaped this' next)
         prevs ->
  forall nexts w w' cs,
    reconcilerUpdateChildren receive unmountComponent prevs nexts w
    = (w', Ok cs) ->
    All2 (fun e (c : instance * bool) =>
            if snd c then shaped (fst c) e else fst c = instantiate e)
         nexts cs.
Proof.
  induction 1 as [|p prevs Hp _ IH]; intros nexts w w' cs.
  - simpl. unfold ret. intros [= _ <-].
    induction nexts as [|e nexts IHn]; simpl; [done|]. by split.
  - destruct nexts as [|e nexts]; simpl.
    + intros E. apply bind_inv_ok in E as (w1 & b & _ & E). by eapply (IH []).
    + intros E. apply bind_inv_ok in E as (w1 & c & E1 & E).
      apply bind_inv_ok in E as (w2 & cs' & E2 & E).
      unfold ret in E. injection E as _ <-. simpl. split; [|by eapply IH].
      unfold shouldUpdate in E1. case_bool_decide as Ht.
      * apply bind_inv_ok in E1 as (w3 & this' & E3 & E1).
        unfold ret in E1. injection E1 as _ <-. simpl. by eapply Hp.
      * apply bind_inv_ok in E1 as (w3 & b & _ & E1).
        unfold ret in E1. by injection E1 as _ <-.
Qed.

Lemma mountNewChildren_shaped rootID nexts :
  forall cs index w w' rendered,
    All2 (fun e (c : instance * bool) =>
            if snd c then shaped (fst c) e else fst c = instantiate e)
         nexts cs ->
    for_each (fun index (c : instance * bool) =>
                if snd c then ret (fst c)
                else mountComponent (fst c) (rootID ++ [index]))
             index cs w = (w', Ok rendered) ->
    All2 (fun e child => shaped child e) nexts rendered.
Proof.
  induction nexts as [|e nexts IH]; intros [|[c kept] cs] index w w' rendered;
    simpl; try done.
  - unfold ret. by intros _ [= _ <-].
  - intros [Hc Hcs] E.
    apply bind_inv_ok in E as (w1 & b & E1 & E).
    apply bind_inv_ok in E as (w2 & bs & E2 & E).
    unfold ret in E. injection E as _ <-. simpl. split; [|by eapply IH].
    destruct kept.
    + unfold ret in E1. by injection E1 as _ <-.
    + subst c. apply mountElement_build in E1. rewrite E1.
      split; [done|]. apply map_index_shaped.
Qed.

Lemma receiveComponent_shaped this :
  forall next w w' this',
    type (_currentElement this) = type next ->
    receiveComponent this next w = (w', Ok this') -> shaped this' next.
Proof.
  induction this as [tag cur id cs IH] using instance_tree_ind.
  intros next w w' this' Ht E.
  pose proof (receiveComponent_currentElement _ _ _ _ _ E) as Hcur.
  revert E. rewrite receiveComponent_eq. cbn [_rootNodeID _renderedChildren].
  destruct id as [id|]; [|done]. intros E.
  apply bind_inv_ok in E as (w1 & node & _ & E).
  apply bind_inv_ok in E as (w2 & [] & _ & E).
  apply bind_inv_ok in E as (w3 & rendered & Er & E).
  apply bind_inv_ok in E as (w4 & [] & _ & E).
  unfold ret in E. injection E as _ <-. split; [done|]. simpl.
  unfold updateChildren in Er.
  apply bind_inv_ok in Er as (w5 & nextChildren & En & Er).
  eapply mountNewChildren_shaped; [|exact Er].
  eapply reconcilerUpdateChildren_shaped; [|exact En]. exact IH.
Qed.

(** X8: after an update to an element of the type of the element that
    the component holds, the component tree has the shape of the next
    tree of elements: at every depth a component has one rendered child
    for each child of its next element, in order, and the element that
    the child holds has the type of that next child. *)
Theorem update_gives_shape this next w w' this' :
  type (_currentElement this) = type next ->
  receiveComponent this next w = (w', Ok this') ->
  shaped this' next /\
  length (_renderedChildren this')
  = length (childrenToUse (props_children next)).
Proof.
  intros Ht E. pose proof (receiveComponent_shaped _ _ _ _ _ Ht E) as Hs.
  split; [done|]. destruct this' as [tag cur id cs].
  destruct Hs as [_ Hs]. by apply All2_length in Hs.
Qed.
(** *** Updates that succeed *)



Lemma not_under_from_child id index j k :
  j < index -> under (id ++ [j]) k -> ~ under_from id index k.
Proof.
  intros Hj Uk (i & Hi & Ui).
  apply (siblings_disjoint id j i k); [lia|done|done].
Qed.

Lemma not_under_from_self id index : ~ under_from id index id.
Proof. intros (j & _ & U). by apply not_under_child in U. Qed.








(** *** The registry and the component tree *)

Lemma region_is_ext reg reg' id ids :
  (forall k, under id k -> reg' !! k = reg !! k) ->
  region_is reg id ids -> region_is reg' id ids.
Proof. intros H R k Uk. rewrite H by done. by apply R. Qed.

Lemma exactly_registered_ext reg reg' id this :
  (forall k, under id k -> reg' !! k = reg !! k) ->
  exactly_registered reg id this -> exactly_registered reg' id this.
Proof. intros H [M R]. split; [done|]. by eapply region_is_ext. Qed.

Lemma under_cases id k :
  under id k -> k = id \/ exists i, under (id ++ [i]) k.
Proof.
  intros [l ->]. destruct l as [|i l].
  - left. by rewrite app_nil_r.
  - right. exists i, l. by rewrite <- app_assoc.
Qed.

Lemma tree_ids_under this :
  forall rootID, mounted_at rootID this ->
                 forall k, In k (tree_ids this) -> under rootID k.
Proof.
  induction this as [tag cur id cs IH] using instance_tree_ind.
  intros rootID [Hid Hcs] k. simpl in Hid, Hcs. subst id.
  rewrite tree_ids_eq. simpl. intros [<-|Hk]; [apply under_self|].
  apply in_flat_map in Hk as (c & Hc & Hk).
  apply Forall_index_Forall in Hcs.
  pose proof (proj2 (Forall_and _ cs) (conj IH Hcs)) as Hboth.
  rewrite Forall_forall in Hboth.
  apply list_elem_of_In in Hc. destruct (Hboth c Hc) as [Hi [i Hm]].
  eapply under_trans; [apply (under_child rootID i)|]. by eapply Hi.
Qed.

Lemma in_children_ids id cs :
  forall index,
    Forall_index (fun i c => mounted_at (id ++ [i]) c) index cs ->
    forall i k, under (id ++ [i]) k ->
      (In k (flat_map tree_ids cs) <->
       index <= i /\ exists c, cs !! (i - index) = Some c /\
                               In k (tree_ids c)).
Proof.
  induction cs as [|c cs IH]; intros index; simpl.
  - intros _ i k _. split; [done|]. by intros (_ & c & Hc & _).
  - intros [Hc Hcs] i k Uk. rewrite in_app_iff, (IH (S index) Hcs i k Uk).
    split.
    + intros [Hk|(Hi & c' & Hl & Hk)].
      * destruct (decide (i = index)) as [->|Hne].
        -- split; [lia|]. exists c. by rewrite Nat.sub_diag.
        -- exfalso. apply (siblings_disjoint id i index k); [done..|].
           by eapply tree_ids_under.
      * split; [lia|]. exists c'. split; [|done].
        replace (i - index) with (S (i - S index)) by lia. done.
    + intros (Hi & c' & Hl & Hk).
      destruct (decide (i = index)) as [->|Hne].
      * rewrite Nat.sub_diag in Hl. injection Hl as <-. by left.
      * right. split; [lia|]. exists c'. split; [|done].
        replace (i - index) with (S (i - S index)) in Hl by lia. done.
Qed.

Lemma Forall_index_lookup {A} (P : nat -> A -> Prop) index l i a :
  Forall_index P index l -> l !! i = Some a -> P (index + i) a.
Proof.
  revert index i. induction l as [|b l IH]; intros index i; simpl; [done|].
  intros [Hb Hl]. destruct i as [|i]; simpl.
  - intros [= <-]. by replace (index + 0) with index by lia.
  - intros E. replace (index + S i) with (S index + i) by lia. eauto.
Qed.

Lemma Forall_index_intro {A} (P : nat -> A -> Prop) l :
  forall index,
    (forall i a, l !! i = Some a -> P (index + i) a) ->
    Forall_index P index l.
Proof.
  induction l as [|b l IH]; intros index H; simpl; [done|]. split.
  - replace index with (index + 0) by lia. by apply H.
  - apply IH. intros i a Hi.
    replace (S index + i) with (index + S i) by lia. by apply H.
Qed.

Lemma under_child_not_self id i k : under (id ++ [i]) k -> k <> id.
Proof. intros U ->. by apply not_under_child in U. Qed.

(** From a component to its rendered children, and back. *)
Lemma exactly_registered_children reg id this :
  exactly_registered reg id this ->
  children_exact reg id 0 (_renderedChildren this).
Proof.
  intros [Hm Hr]. apply mounted_at_inv in Hm as [Hid Hcs].
  rewrite tree_ids_eq, Hid in Hr. simpl in Hr.
  assert (forall i k, under (id ++ [i]) k ->
            (is_Some (reg !! k) <->
             exists c, _renderedChildren this !! i = Some c /\
                       In k (tree_ids c))) as Hk.
  { intros i k Uk.
    rewrite (Hr k) by (eapply under_trans; [apply under_child|done]).
    cbn [In]. rewrite (in_children_ids id _ 0 Hcs i k Uk), Nat.sub_0_r.
    split.
    - intros [E|(_ & H)]; [|done]. symmetry in E.
      by apply under_child_not_self in Uk.
    - intros H. right. split; [lia|done]. }
  split.
  - apply Forall_index_intro. intros i c Hi. simpl.
    split; [by apply (Forall_index_lookup _ _ _ _ _ Hcs Hi)|].
    intros k Uk. rewrite (Hk i k Uk). split.
    + intros (c' & Hc' & Hin). congruence.
    + intros Hin. by exists c.
  - intros i Hi k Uk. rewrite (Hk i k Uk). split; [|done].
    intros (c & Hc & _). apply lookup_lt_Some in Hc. simpl in Hi. lia.
Qed.

Lemma children_exact_region reg id cs :
  children_exact reg id 0 cs -> is_Some (reg !! id) ->
  region_is reg id (id :: flat_map tree_ids cs).
Proof.
  intros [Hcs Hb] Hid k Uk.
  assert (Forall_index (fun i c => mounted_at (id ++ [i]) c) 0 cs) as Hm.
  { eapply Forall_index_impl; [|exact Hcs]. by intros i c [? _]. }
  apply under_cases in Uk as [->|[i Uk]].
  - split; [by left|done].
  - simpl. rewrite (in_children_ids id _ 0 Hm i k Uk), Nat.sub_0_r.
    destruct (cs !! i) as [c|] eqn:Hc.
    + pose proof (Forall_index_lookup _ _ _ _ _ Hcs Hc) as [_ Hr].
      simpl in Hr. rewrite (Hr k Uk). split.
      * intros Hin. right. split; [lia|]. by exists c.
      * intros [E|(_ & c' & [= <-] & Hin)]; [|done].
        symmetry in E. by apply under_child_not_self in Uk.
    + apply lookup_ge_None in Hc.
      rewrite (Hb i ltac:(simpl; lia) k Uk). split; [done|].
      intros [E|(_ & c' & Hc' & _)]; [|done].
      symmetry in E. by apply under_child_not_self in Uk.
Qed.

Lemma mounted_in_ids this :
  forall reg id, mounted_in reg id this ->
                 forall k, In k (tree_ids this) -> is_Some (reg !! k).
Proof.
  induction this as [tag cur rid cs IH] using instance_tree_ind.
  intros reg id (Hid & Hreg & Hcs) k. simpl in Hid, Hcs. subst rid.
  rewrite tree_ids_eq. simpl. intros [<-|Hk]; [done|].
  apply in_flat_map in Hk as (c & Hc & Hk).
  apply Forall_index_Forall in Hcs.
  pose proof (proj2 (Forall_and _ cs) (conj IH Hcs)) as Hboth.
  rewrite Forall_forall in Hboth.
  apply list_elem_of_In in Hc. destruct (Hboth c Hc) as [Hi [i Hm]].
  by eapply Hi.
Qed.

Lemma exactly_registered_mounted_in this :
  forall reg id, exactly_registered reg id this -> mounted_in reg id this.
Proof.
  induction this as [tag cur rid cs IH] using instance_tree_ind.
  intros reg id He.
  pose proof (exactly_registered_children _ _ _ He) as [Hcs _].
  destruct He as [Hm Hr]. apply mounted_at_inv in Hm as Hi.
  destruct Hi as [Hid _]. simpl in Hid, Hcs. subst rid.
  split; [done|]. split.
  - apply Hr; [apply under_self|]. rewrite tree_ids_eq. by left.
  - simpl. clear Hm Hr. revert Hcs. generalize 0.
    induction IH as [|c cs Hc _ IHcs]; intros n; simpl; [done|].
    intros [H1 H2]. split; eauto.
Qed.

(** A mount where nothing is registered registers the tree exactly. *)
Lemma mountElement_exact element this rootID w w' this' :
  region_is (registry w) rootID [] ->
  mountElement element this rootID w = (w', Ok this') ->
  exactly_registered (registry w') rootID this'.
Proof.
  intros Hfree E. split; [by eapply mountElement_mounted_at|].
  intros k Uk. split.
  - intros Hs. destruct (decide (k ∈ tree_ids this')) as [Hk|Hk];
      rewrite list_elem_of_In in Hk; [done|].
    rewrite (mountElement_adds _ _ _ _ _ _ E k Hk) in Hs.
    by apply (Hfree k Uk) in Hs.
  - by apply (mounted_in_ids this' _ rootID), mountElement_mounted_in
      with (this := this) (w := w) (element := element).
Qed.

(** An unmount leaves nothing of the tree in the registry. *)
Lemma unmountComponent_empties this id w w' r :
  exactly_registered (registry w) id this ->
  unmountComponent this w = (w', Ok r) ->
  region_is (registry w') id [].
Proof.
  intros [Hm Hr] E k Uk. split; [|done]. intros Hs.
  destruct (unmountComponent_only_deletes _ _ _ _ E k) as [Hn|He].
  - rewrite Hn in Hs. by apply is_Some_None in Hs.
  - assert (In k (tree_ids this)) as Hin
        by (apply (Hr k Uk); by rewrite <- He).
    rewrite (unmountComponent_drops_all _ _ _ _ E k Hin) in Hs.
    by apply is_Some_None in Hs.
Qed.

Lemma children_exact_step reg reg' id index c cs :
  (forall k, ~ under (id ++ [index]) k -> reg' !! k = reg !! k) ->
  children_exact reg id index (c :: cs) ->
  children_exact reg' id (S index) cs.
Proof.
  intros Hf [[_ Hcs] Hb]. split.
  - eapply Forall_index_impl_ge; [|exact Hcs]. intros i a Hi.
    apply exactly_registered_ext. intros k Uk. apply Hf.
    apply (siblings_disjoint id i index k); [lia|done].
  - intros i Hi. eapply region_is_ext; [|apply Hb; simpl; lia].
    intros k Uk. apply Hf.
    apply (siblings_disjoint id i index k); [lia|done].
Qed.

Lemma reconciled_exactly_frame reg reg' id index j c :
  j < index ->
  (forall k, ~ under_from id index k -> reg' !! k = reg !! k) ->
  reconciled_exactly reg id j c -> reconciled_exactly reg' id j c.
Proof.
  intros Hj Hf. unfold reconciled_exactly.
  assert (forall k, under (id ++ [j]) k -> reg' !! k = reg !! k) as H.
  { intros k Uk. apply Hf. by eapply not_under_from_child. }
  destruct (snd c).
  - by apply exactly_registered_ext.
  - intros [He Hr]. split; [done|]. by eapply region_is_ext.
Qed.

Lemma reconcilerUpdateChildren_nil prevs w w' cs :
  reconcilerUpdateChildren receiveComponent unmountComponent prevs [] w
  = (w', Ok cs) -> cs = [].
Proof.
  revert w. induction prevs as [|p prevs IH]; intros w; simpl.
  - unfold ret. by intros [= _ <-].
  - intros E. apply bind_inv_ok in E as (w1 & b & _ & E). eauto.
Qed.

Lemma reconcilerUpdateChildren_exact id prevs :
  Forall update_keeps_exact prevs ->
  forall index nexts w w' cs,
    children_exact (registry w) id index prevs ->
    reconcilerUpdateChildren receiveComponent unmountComponent prevs nexts w
    = (w', Ok cs) ->
    (forall k, ~ under_from id index k ->
               registry w' !! k = registry w !! k) /\
    Forall_index (reconciled_exactly (registry w') id) index cs /\
    (forall i, index + length cs <= i ->
               region_is (registry w') (id ++ [i]) []).
Proof.
  induction 1 as [|p prevs Hp _ IH]; intros index nexts w w' cs Hx.
  - simpl. unfold ret. intros [= <- <-]. split; [done|].
    destruct Hx as [_ Hb]. simpl in Hb. split.
    + clear -Hb. revert index Hb.
      induction nexts as [|e nexts IHn]; intros index Hb; simpl; [done|].
      split.
      * split; [by exists e|]. apply Hb. lia.
      * apply IHn. intros i Hi. apply Hb. lia.
    + intros i Hi. apply Hb. lia.
  - pose proof Hx as [[Hpx _] _].
    assert (forall w1 r, unmountComponent p w = (w1, Ok r) ->
              (forall k, ~ under (id ++ [index]) k ->
                         registry w1 !! k = registry w !! k) /\
              region_is (registry w1) (id ++ [index]) []) as Hun.
    { intros w1 r E1. split; [|by eapply unmountComponent_empties].
      by pose proof (unmountComponent_preserves _ _ (proj1 Hpx) _ _ _ E1)
        as [R1 _ _ _]. }
    destruct nexts as [|e nexts]; simpl.
    + intros E. pose proof (reconcilerUpdateChildren_nil (p :: prevs) _ _ _ E)
        as ->. revert E. simpl. intros E.
      apply bind_inv_ok in E as (w1 & b & E1 & E2).
      destruct (Hun _ _ E1) as [R1 Z1].
      destruct (IH (S index) [] w1 w' [] (children_exact_step _ _ _ _ _ _ R1 Hx)
                  E2) as (R2 & _ & B2).
      split.
      { intros k Hk. rewrite R2, R1; [done| |].
        - intros U. apply Hk. by exists index.
        - intros (j & Hj & U). apply Hk. exists j. split; [lia|done]. }
      split; [done|]. intros i Hi. simpl in Hi.
      destruct (decide (i = index)) as [->|Hne].
      * eapply region_is_ext; [|exact Z1]. intros k Uk. apply R2.
        by apply (not_under_from_child id (S index) index k); [lia|].
      * apply B2. simpl. lia.
    + intros E. apply bind_inv_ok in E as (w1 & c & E1 & E).
      apply bind_inv_ok in E as (w2 & cs' & E2 & E).
      unfold ret in E. injection E as <- <-.
      assert ((forall k, ~ under (id ++ [index]) k ->
                         registry w1 !! k = registry w !! k) /\
              reconciled_exactly (registry w1) id index c) as [R1 I1].
      { destruct (shouldUpdate _ _).
        - apply bind_inv_ok in E1 as (w3 & p' & E3 & E1).
          unfold ret in E1. injection E1 as <- <-. split.
          + pose proof (receiveComponent_preserves _ _ e (proj1 Hpx)
                          _ _ _ E3) as [R1 _ _ _].
            intros k Hk. apply R1. intros B. by apply Hk, below_under.
          + by eapply Hp.
        - apply bind_inv_ok in E1 as (w3 & b & E3 & E1).
          unfold ret in E1. injection E1 as <- <-.
          destruct (Hun _ _ E3) as [R1 Z1]. split; [done|].
          split; [by exists e|done]. }
      destruct (IH (S index) nexts w1 w2 cs'
                  (children_exact_step _ _ _ _ _ _ R1 Hx) E2)
        as (R2 & I2 & B2).
      split.
      { intros k Hk. rewrite R2, R1; [done| |].
        - intros U. apply Hk. by exists index.
        - intros (j & Hj & U). apply Hk. exists j. split; [lia|done]. }
      split.
      { simpl. split; [|done].
        apply (reconciled_exactly_frame (registry w1) _ id (S index));
          [lia|done|done]. }
      intros i Hi. apply B2. simpl in Hi. lia.
Qed.

Lemma mountNewChildren_exact id cs :
  forall index w w' rendered,
    Forall_index (reconciled_exactly (registry w) id) index cs ->
    (forall i, index + length cs <= i ->
               region_is (registry w) (id ++ [i]) []) ->
    for_each (fun index (c : instance * bool) =>
                if snd c then ret (fst c)
                else mountComponent (fst c) (id ++ [index]))
             index cs w = (w', Ok rendered) ->
    (forall k, ~ under_from id index k ->
               registry w' !! k = registry w !! k) /\
    children_exact (registry w') id index rendered.
Proof.
  induction cs as [|[c kept] cs IH]; intros index w w' rendered; simpl.
  - unfold ret. intros _ Hb [= <- <-]. split; [done|]. split; [done|].
    intros i Hi. apply Hb. simpl in Hi. lia.
  - intros [Hc Hcs] Hb E.
    apply bind_inv_ok in E as (w1 & c1 & E1 & E).
    apply bind_inv_ok in E as (w2 & rest & E2 & E).
    unfold ret in E. injection E as <- <-.
    assert ((forall k, ~ under (id ++ [index]) k ->
                       registry w1 !! k = registry w !! k) /\
            exactly_registered (registry w1) (id ++ [index]) c1) as [R1 X1].
    { unfold reconciled_exactly in Hc. simpl in Hc. destruct kept.
      - unfold ret in E1. by injection E1 as <- <-.
      - destruct Hc as [[e ->] Hz]. split.
        + by pose proof (mountElement_preserves _ _ _ _ _ _ E1)
            as [R1 _ _ _].
        + by eapply mountElement_exact. }
    destruct (IH (S index) w1 w2 rest) as (R2 & X2 & B2); [| |done|].
    { eapply Forall_index_impl_ge; [|exact Hcs]. intros i a Hi.
      unfold reconciled_exactly.
      assert (forall k, under (id ++ [i]) k ->
                        registry w1 !! k = registry w !! k) as H.
      { intros k Uk. apply R1.
        apply (siblings_disjoint id i index k); [lia|done]. }
      destruct (snd a).
      - by apply exactly_registered_ext.
      - intros [He Hr]. split; [done|]. by eapply region_is_ext. }
    { intros i Hi. eapply region_is_ext; [|apply Hb; lia].
      intros k Uk. apply R1.
      apply (siblings_disjoint id i index k); [lia|done]. }
    split.
    { intros k Hk. rewrite R2, R1; [done| |].
      - intros U. apply Hk. by exists index.
      - intros (j & Hj & U). apply Hk. exists j. split; [lia|done]. }
    split.
    + simpl. split; [|done].
      eapply exactly_registered_ext; [|exact X1]. intros k Uk. apply R2.
      by apply (not_under_from_child id (S index) index k); [lia|].
    + intros i Hi. apply B2. simpl in Hi. lia.
Qed.

Lemma receiveComponent_exact this : update_keeps_exact this.
Proof.
  induction this as [tag cur rid cs IH] using instance_tree_ind.
  intros id next w w' this' Hx E.
  pose proof (receiveComponent_mounted_at _ _ _ _ _ _ (proj1 Hx) E) as Hm'.
  pose proof (exactly_registered_children _ _ _ Hx) as Hcx.
  pose proof (exactly_registered_mounted_in _ _ _ Hx) as (Hid & Hreg & _).
  simpl in Hid, Hcx. subst rid.
  revert E. rewrite receiveComponent_eq. cbn [_rootNodeID _renderedChildren].
  intros E. apply bind_inv_ok in E as (w0 & node & Eg & E).
  apply get_world in Eg as ->.
  apply bind_inv_ok in E as (w1 & [] & Eu & E).
  assert (registry w1 = registry w) as Hr1 by (by injection Eu as <-).
  apply bind_inv_ok in E as (w3 & rendered & Er & E).
  apply bind_inv_ok in E as (w4 & [] & Ed & E).
  apply debouncedRender_inv in Ed as ->.
  unfold ret in E. injection E as <- <-.
  unfold updateChildren in Er.
  apply bind_inv_ok in Er as (w2 & ncs & E2 & E3).
  rewrite <- Hr1 in Hcx, Hreg.
  destruct (reconcilerUpdateChildren_exact id cs IH 0 _ _ _ _ Hcx E2)
    as (R2 & I2 & B2).
  destruct (mountNewChildren_exact id ncs 0 _ _ _ I2 B2 E3) as (R3 & X3).
  split; [done|]. rewrite tree_ids_eq. cbn [registry _rootNodeID].
  apply (children_exact_region _ id rendered); [done|].
  by rewrite R3, R2 by apply not_under_from_self.
Qed.

Lemma receiveAll_exact nexts :
  forall this rootID w w' this',
    exactly_registered (registry w) rootID this ->
    receiveAll this nexts w = (w', Ok this') ->
    exactly_registered (registry w') rootID this' /\
    (forall k, ~ below rootID k -> registry w' !! k = registry w !! k) /\
    screen w' = screen w.
Proof.
  induction nexts as [|next nexts IH]; intros this rootID w w' this' Hx.
  - simpl. unfold ret. by intros [= <- <-].
  - simpl. intros E. apply bind_inv_ok in E as (w1 & this1 & E1 & E).
    pose proof (receiveComponent_preserves _ _ next (proj1 Hx) _ _ _ E1)
      as [R1 S1 _ _].
    apply (receiveComponent_exact this rootID next) in E1; [|done].
    destruct (IH _ _ _ _ _ E1 E) as (X2 & R2 & S2).
    split; [done|]. split; [|congruence].
    intros k Hk. by rewrite R2, R1.
Qed.

(** X13: from a registry with nothing at or under the identifier, a
    mount followed by any sequence of updates that succeed leaves the
    registry, at or under the identifier, with exactly one entry for each
    component of the tree and no other; unmounting the component then
    succeeds and gives back the registry as it was before the mount:
    components replaced or removed by the updates leave no entry behind. *)
Theorem lifecycle_leaves_no_entry this rootID nexts w w1 this1 w2 this2 :
  rootID <> [] ->
  (forall k, under rootID k -> registry w !! k = None) ->
  mountComponent this rootID w = (w1, Ok this1) ->
  receiveAll this1 nexts w1 = (w2, Ok this2) ->
  (forall k, under rootID k ->
             (is_Some (registry w2 !! k) <-> In k (tree_ids this2))) /\
  exists w3,
    unmountComponent this2 w2 = (w3, Ok (unmounted this2)) /\
    registry w3 = registry w.
Proof.
  intros Hne Hfree Em Er.
  assert (region_is (registry w) rootID []) as Hz.
  { intros k Uk. rewrite (Hfree k Uk). split; [|done].
    intros Hs. by apply is_Some_None in Hs. }
  pose proof (mountElement_exact _ _ _ _ _ _ Hz Em) as X1.
  pose proof (mountComponent_preserves _ _ _ _ _ Em) as [Rm Sm _ _].
  destruct (receiveAll_exact _ _ _ _ _ _ X1 Er) as (X2 & Rr & Sr).
  split; [apply X2|].
  pose proof (exactly_registered_mounted_in _ _ _ X2) as Hin.
  assert (exists p, getParent rootID w2 = (w2, Ok p)) as Hp.
  { revert Em. rewrite mountComponent_eq. cbv zeta. intros Em.
    apply bind_inv_ok in Em as (w0 & p & Ep & _).
    apply getParent_world in Ep as Ew. subst w0. exists p.
    apply (getParent_frame rootID w w2 p); [|congruence|exact Ep].
    rewrite Rr, Rm; [done|by apply removelast_not_under|].
    intros B. by apply below_under, removelast_not_under in B. }
  destruct (unmountComponent_total _ _ _ Hin Hp) as [w3 Eu].
  pose proof (unmountComponent_preserves _ _ (proj1 X2) _ _ _ Eu)
    as [Ru _ _ _].
  exists w3. split; [done|]. apply map_eq. intros k.
  destruct (decide (rootID `prefix_of` k)) as [Uk|Uk].
  - rewrite (Hfree k Uk).
    pose proof (unmountComponent_empties _ _ _ _ _ X2 Eu k Uk) as [Hn _].
    destruct (registry w3 !! k) eqn:Ek; [|done].
    destruct Hn. by eexists.
  - rewrite Ru, Rr, Rm; first [done | intros B; by apply Uk, below_under].
Qed.

End FurtherProperties.

(** *** One pass after the other *)

Lemma enqueue_all_pool q callbacks s :
  CallbackQueue.instancePool (enqueue_all q callbacks s)
  = CallbackQueue.instancePool s /\
  CallbackQueue.next_queue (enqueue_all q callbacks s)
  = CallbackQueue.next_queue s.
Proof.
  revert s. induction callbacks as [|c cs IH]; intros s; simpl; [done|].
  destruct (IH (CallbackQueue.enqueue q c s)) as [-> ->]. done.
Qed.

Lemma enqueue_all_callbacks q callbacks s :
  CallbackQueue.callbacks_of q (enqueue_all q callbacks s)
  = CallbackQueue.callbacks_of q s ++ callbacks.
Proof.
  revert s. induction callbacks as [|c cs IH]; intros s; simpl.
  - by rewrite app_nil_r.
  - rewrite IH. unfold CallbackQueue.callbacks_of at 1.
    unfold CallbackQueue.enqueue at 1. simpl. rewrite lookup_insert_eq.
    unfold CallbackQueue.callbacks_of. by rewrite <- app_assoc.
Qed.

(** X10: when the pool holds no more queues than its size, a
    transaction that is constructed, used to enqueue callbacks and
    destructed gives its queue back to the pool, and the transaction
    constructed next gets this same queue with none of the callbacks
    left in it; the constructor also leaves the transaction, new or
    reused, without wrappers and not in a transaction. *)
Theorem pass_after_pass this callbacks s :
  length (CallbackQueue.instancePool s) <= CallbackQueue.poolSize ->
  let s1 := fst (ReactBlessedReconcileTransaction.ReactBlessedReconcileTransaction this s) in
  let tx := snd (ReactBlessedReconcileTransaction.ReactBlessedReconcileTransaction this s) in
  exists q s3 tx',
    ReactBlessedReconcileTransaction.getReactMountReady tx = Some q /\
    ReactBlessedReconcileTransaction.transactionWrappers tx = [] /\
    ReactBlessedReconcileTransaction._isInTransaction tx = false /\
    CallbackQueue.callbacks_of q (enqueue_all q callbacks s1) = callbacks /\
    ReactBlessedReconcileTransaction.destructor tx
      (enqueue_all q callbacks s1) = Some (s3, tx') /\
    CallbackQueue.instancePool s3 = CallbackQueue.instancePool s1 ++ [q] /\
    let s4 := fst (ReactBlessedReconcileTransaction.ReactBlessedReconcileTransaction tx' s3) in
    let tx2 := snd (ReactBlessedReconcileTransaction.ReactBlessedReconcileTransaction tx' s3) in
    ReactBlessedReconcileTransaction.getReactMountReady tx2 = Some q /\
    CallbackQueue.callbacks_of q s4 = [] /\
    CallbackQueue.instancePool s4 = CallbackQueue.instancePool s1 /\
    CallbackQueue.next_queue s4 = CallbackQueue.next_queue s1.
Proof.
  intros Hpool s1 tx.
  assert (exists q,
            ReactBlessedReconcileTransaction.reactMountReady tx = Some q /\
            ReactBlessedReconcileTransaction.transactionWrappers tx = [] /\
            ReactBlessedReconcileTransaction._isInTransaction tx = false /\
            CallbackQueue.callbacks_of q s1 = [] /\
            length (CallbackQueue.instancePool s1) < CallbackQueue.poolSize)
    as (q & Hq & Hw & Ht & Hempty & Hroom).
  { subst s1 tx.
    unfold ReactBlessedReconcileTransaction.ReactBlessedReconcileTransaction,
      CallbackQueue.getPooled.
    destruct (last (CallbackQueue.instancePool s)) as [q|] eqn:El; simpl.
    - exists q. unfold CallbackQueue.callbacks_of. simpl.
      rewrite lookup_insert_eq. repeat (split; [done|]).
      destruct (CallbackQueue.instancePool s) as [|a l] using rev_ind;
        [done|].
      rewrite removelast_last. rewrite length_app in Hpool. simpl in Hpool.
      lia.
    - exists (CallbackQueue.next_queue s).
      unfold CallbackQueue.callbacks_of. simpl. rewrite lookup_insert_eq.
      apply last_None in El. rewrite El. simpl.
      unfold CallbackQueue.poolSize. by repeat split; try lia. }
  destruct (enqueue_all_pool q callbacks s1) as [Hp Hn].
  exists q. eexists _, _. split; [exact Hq|]. split; [exact Hw|].
  split; [exact Ht|].
  split; [by rewrite enqueue_all_callbacks, Hempty|].
  split.
  { unfold ReactBlessedReconcileTransaction.destructor. by rewrite Hq. }
  assert (CallbackQueue.instancePool
            (CallbackQueue.release q (enqueue_all q callbacks s1))
          = CallbackQueue.instancePool s1 ++ [q]) as Hrel.
  { unfold CallbackQueue.release. simpl. rewrite Hp.
    by destruct (decide _) as [_|Hno]. }
  split; [exact Hrel|].
  unfold ReactBlessedReconcileTransaction.ReactBlessedReconcileTransaction,
    CallbackQueue.getPooled.
  rewrite Hrel, last_snoc. simpl. rewrite removelast_last.
  unfold CallbackQueue.callbacks_of. simpl. rewrite lookup_insert_eq.
  split; [done|]. split; [done|]. split; [done|].
  unfold CallbackQueue.release. simpl. by destruct (decide _).
Qed.

(** *** The further properties at work on the examples *)


Lemma mount_builds_component_tree_witness :
  snd (Examples.mounted Examples.tree) = build Examples.tree [0] /\
  mounted_in (registry (fst (Examples.mounted Examples.tree))) [0]
             (snd (Examples.mounted Examples.tree)).
Proof.
  destruct (mount_builds_component_tree
              (collaborators := Examples.collaborators)
              (ReactMultiChild.instantiate Examples.tree) [0]
              Examples.empty_world
              (fst (Examples.mounted Examples.tree))
              (snd (Examples.mounted Examples.tree))) as (_ & B & R).
  - vm_compute. reflexivity.
  - split; [apply B; reflexivity|exact R].
Defined.

Lemma mount_unmount_round_trip_witness :
  exists w2,
    unmountComponent (snd (Examples.mounted Examples.tree))
                     (fst (Examples.mounted Examples.tree))
    = (w2, Ok (unmounted (snd (Examples.mounted Examples.tree)))) /\
    registry w2 = registry Examples.empty_world.
Proof.
  destruct (mount_unmount_round_trip
              (collaborators := Examples.collaborators)
              (ReactMultiChild.instantiate Examples.tree) [0]
              Examples.empty_world
              (fst (Examples.mounted Examples.tree))
              (snd (Examples.mounted Examples.tree)))
    as (w2 & E & R & _).
  - discriminate.
  - intros k _. reflexivity.
  - vm_compute. reflexivity.
  - exists w2. exact (conj E R).
Defined.

Lemma public_instance_is_mount_widget_witness :
  let w := fst (Examples.mounted Examples.tree) in
  let this := snd (Examples.mounted Examples.tree) in
  let r := receiveAll (collaborators := Examples.collaborators) this
             [Examples.pair_of_boxes; Examples.tree] w in
  getPublicInstance (Examples.outcome this r).2 (fst r) = (fst r, Ok 1).
Proof.
  intros w this r.
  destruct (public_instance_is_mount_widget
              (collaborators := Examples.collaborators)
              (ReactMultiChild.instantiate Examples.tree) [0]
              Examples.empty_world w this
              [Examples.pair_of_boxes; Examples.tree] (fst r)
              (Examples.outcome this r).2) as [_ H].
  - vm_compute. reflexivity.
  - vm_compute. reflexivity.
  - exact H.
Defined.


Lemma subtree_isolation_witness :
  let w := fst (Examples.mounted Examples.tree) in
  let this := snd (Examples.mounted Examples.tree) in
  registry (fst (receiveComponent (collaborators := Examples.collaborators)
                   this Examples.pair_of_boxes w)) !! [0]
  = registry w !! [0].
Proof.
  intros w this.
  destruct (subtree_isolation (collaborators := Examples.collaborators)
              this [0] Examples.pair_of_boxes w) as [[H _] _].
  - vm_compute. repeat split.
  - apply H. intros [i U]. apply prefix_length in U. simpl in U. lia.
Defined.

Lemma update_that_keeps_all_witness :
  let w := fst (Examples.mounted Examples.tree) in
  let this := snd (Examples.mounted Examples.tree) in
  let next :=
    Element "box" {["label"%string := PStr "new"]}
      (ChildrenMany [Examples.leaf "box";
                     Element "list" ∅ (ChildrenOne (Examples.leaf "box"))]) in
  exists w',
    receiveComponent (collaborators := Examples.collaborators) this next w
    = (w', Ok this) /\
    registry w' = registry w.
Proof.
  intros w this next.
  destruct (update_that_keeps_all (collaborators := Examples.collaborators)
              this [0] next w) as (w' & E & R & _).
  - vm_compute. repeat split; eauto.
  - vm_compute. repeat split.
  - exists w'. exact (conj E R).
Defined.

Lemma update_gives_shape_witness :
  let w := fst (Examples.mounted Examples.tree) in
  let this := snd (Examples.mounted Examples.tree) in
  let r := receiveComponent (collaborators := Examples.collaborators) this
             Examples.pair_of_boxes w in
  length (_renderedChildren (Examples.outcome this r).2) = 1.
Proof.
  intros w this r.
  destruct (update_gives_shape (collaborators := Examples.collaborators)
              this Examples.pair_of_boxes w (fst r)
              (Examples.outcome this r).2) as [_ H].
  - vm_compute. reflexivity.
  - vm_compute. reflexivity.
  - exact H.
Defined.


Lemma pass_after_pass_witness :
  let s := CallbackQueue.Store ∅ [] 0 in
  let this := ReactBlessedReconcileTransaction.Transaction [] [] true None in
  exists q s3 tx',
    ReactBlessedReconcileTransaction.destructor
      (snd (ReactBlessedReconcileTransaction.ReactBlessedReconcileTransaction
              this s))
      (enqueue_all q [7; 8]
         (fst (ReactBlessedReconcileTransaction.ReactBlessedReconcileTransaction
                 this s)))
    = Some (s3, tx') /\
    CallbackQueue.callbacks_of q
      (fst (ReactBlessedReconcileTransaction.ReactBlessedReconcileTransaction
              tx' s3)) = [].
Proof.
  intros s this.
  destruct (pass_after_pass this [7; 8] s)
    as (q & s3 & tx' & _ & _ & _ & _ & D & _ & _ & C & _).
  - vm_compute. lia.
  - exists q, s3, tx'. exact (conj D C).
Defined.

Lemma unmount_only_detaches_witness :
  let w := fst (Examples.mounted Examples.tree) in
  let this := snd (Examples.mounted Examples.tree) in
  next_handle (fst (unmountComponent this w)) = next_handle w.
Proof.
  intros w this.
  destruct (unmount_only_detaches this w (fst (unmountComponent this w))
              (snd (unmountComponent this w))) as (_ & H & _).
  - vm_compute. reflexivity.
  - exact H.
Defined.


Lemma lifecycle_leaves_no_entry_witness :
  let w1 := fst (Examples.mounted Examples.tree) in
  let this1 := snd (Examples.mounted Examples.tree) in
  let r := receiveAll (collaborators := Examples.collaborators) this1
             [Examples.pair_of_boxes; Examples.tree] w1 in
  exists w3,
    unmountComponent (Examples.outcome this1 r).2 (fst r)
    = (w3, Ok (unmounted (Examples.outcome this1 r).2)) /\
    registry w3 = registry Examples.empty_world.
Proof.
  intros w1 this1 r.
  destruct (lifecycle_leaves_no_entry
              (collaborators := Examples.collaborators)
              (ReactMultiChild.instantiate Examples.tree) [0]
              [Examples.pair_of_boxes; Examples.tree]
              Examples.empty_world w1 this1 (fst r)
              (Examples.outcome this1 r).2) as (_ & w3 & E & R).
  - discriminate.
  - intros k _. reflexivity.
  - vm_compute. reflexivity.
  - vm_compute. reflexivity.
  - exists w3. exact (conj E R).
Defined.
